(** * sshx: the signaling server's peer mailboxes and the daemon request envelope

    A shallow embedding of
    - [pkg/types]: [SignalingInfo], [PoolId] with its text, the opcode
      constants;
    - [cmd/signaling/data_manager.go]: [DManager] with [Get], [Clean],
      [resetAlive], [Set] and the watchdog goroutine that [Set] starts;
    - [cmd/signaling/server.go]: the [pull] and [push] handlers;
    - [pkg/impl]: [BaseImpl] and [Sender];
    - [pkg/conf]: [ClearKnownHosts].

    Go values are modelled as the code has them: [int] and [int32] as [Z] with
    the wrap-around written out, maps as [gmap], channels as references into
    a store of channel objects, goroutines as entries of task lists that a
    schedule steps one at a time. *)

From stdpp Require Import gmap strings list fin_maps pretty.
From Stdlib Require Import ZArith Lia Strings.Ascii Strings.Byte.

Local Open Scope Z_scope.

(** ** Outcomes of a call

    A Go call returns, blocks its goroutine, or panics. *)

Inductive outcome (A : Type) : Type :=
| Done (a : A)
| Blocks
| Panics.
Arguments Done {A} a.
Arguments Blocks {A}.
Arguments Panics {A}.

(** [outcome] is a monad in stdpp's sense: [x ← o; k] runs [k] on the
    result of a call that returned and passes a block or a panic on. *)
#[global] Instance outcome_ret : MRet outcome := λ A a, Done a.
#[global] Instance outcome_fmap : FMap outcome := λ A B f o,
  match o with
  | Done a => Done (f a)
  | Blocks => Blocks
  | Panics => Panics
  end.
#[global] Instance outcome_bind : MBind outcome := λ A B k o,
  match o with
  | Done a => k a
  | Blocks => Blocks
  | Panics => Panics
  end.

(** ** Machine integers *)

Definition wrap (bits : Z) (z : Z) : Z :=
  (z + 2 ^ (bits - 1)) mod 2 ^ bits - 2 ^ (bits - 1).

(** Go's [int] on the 64-bit targets the server is built for. *)
Definition int_wrap : Z → Z := wrap 64.
Definition int32_wrap : Z → Z := wrap 32.

(** ** pkg/types *)

Module types.

Definition OPTION_TYPE_DOWN : Z := 1.
Definition OPTION_TYPE_STAT : Z := 2.

Definition APP_TYPE_SSH : Z := 0.
Definition APP_TYPE_VNC : Z := 1.
Definition APP_TYPE_SCP : Z := 2.
Definition APP_TYPE_SFS : Z := 3.
Definition APP_TYPE_PROXY : Z := 4.
Definition APP_TYPE_STAT : Z := 5.
Definition APP_TYPE_VNC_SERVICE : Z := 6.
Definition APP_TYPE_MESSAGER : Z := 7.
Definition APP_TYPE_TRANSFER_SERVICE : Z := 8.

Definition SIG_TYPE_UNKNOWN : Z := 0.
Definition SIG_TYPE_CANDIDATE : Z := 1.
Definition SIG_TYPE_ANSWER : Z := 2.
Definition SIG_TYPE_OFFER : Z := 3.

Record PoolId : Type := mkPoolId {
  Value : Z;      (* int64 *)
  Direction : Z;  (* int32 *)
  ImplCode : Z    (* int32 *)
}.

Record SignalingInfo : Type := mkSignalingInfo {
  Flag : Z;                 (* int *)
  Source : string;
  SDP : string;
  Candidate : list byte;
  Id : PoolId;
  Target : string;
  PeerType : Z;             (* int32 *)
  RemoteRequestType : Z     (* int32 *)
}.

(** The zero value of the struct: what [var info types.SignalingInfo]
    holds and what a receive from a closed, drained channel yields. *)
Definition zero : SignalingInfo :=
  mkSignalingInfo 0 "" "" [] (mkPoolId 0 0 0) "" 0 0.

(** pool.go *)
Definition NewPoolId (id impc : Z) : PoolId := mkPoolId id 0 impc.
Definition Raw (pd : PoolId) : Z := Value pd.

End types.

Import types.

(** ** Channels of [types.SignalingInfo]

    A channel value is a reference; [nil] is the reference of no channel.
    The channel objects live in a store, in allocation order. *)

Record chan : Type := mkChan {
  buf : list SignalingInfo;   (* queued elements, oldest first *)
  cap : nat;                  (* capacity given to make *)
  closed : bool
}.

Definition make_chan (n : nat) : chan := mkChan [] n false.
Definition close_chan (c : chan) : chan := mkChan (buf c) (cap c) true.

Definition chanref : Type := option nat.   (* None is the nil channel *)

(** Whether a send can proceed now, and what it does. A send on a closed
    channel proceeds by panicking; a send on a full channel is not ready. *)
Inductive send_try : Type :=
| SendReady (c' : chan)
| SendNotReady
| SendPanics.

Definition chan_send (c : chan) (v : SignalingInfo) : send_try :=
  if closed c then SendPanics
  else if decide (length (buf c) < cap c)%nat
       then SendReady (mkChan (buf c ++ [v]) (cap c) (closed c))
       else SendNotReady.

(** Whether a receive can proceed now. Buffered elements are delivered
    first, also after close; a closed and drained channel delivers zero
    values. *)
Inductive recv_try : Type :=
| RecvReady (v : SignalingInfo) (c' : chan)
| RecvNotReady.

Definition chan_recv (c : chan) : recv_try :=
  match buf c with
  | v :: q => RecvReady v (mkChan q (cap c) (closed c))
  | [] => if closed c then RecvReady zero c else RecvNotReady
  end.

(** [select] with one channel case. With a [default] clause the statement
    never waits: when the case is not ready the default runs. Without one
    the goroutine blocks. A case on the nil channel is never ready. The
    result is [Some] of the case's effect or [None] for the default. *)
Definition select_send (has_default : bool) (h : list chan) (r : chanref)
    (v : SignalingInfo) : outcome (option (list chan)) :=
  let not_ready := if has_default then Done None else Blocks in
  match r with
  | None => not_ready
  | Some l =>
      match h !! l with
      | None => Panics   (* a reference to no object: ruled out by Go's memory safety *)
      | Some c =>
          match chan_send c v with
          | SendReady c' => Done (Some (<[l := c']> h))
          | SendNotReady => not_ready
          | SendPanics => Panics
          end
      end
  end.

Definition select_recv (has_default : bool) (h : list chan) (r : chanref)
    : outcome (option (SignalingInfo * list chan)) :=
  let not_ready := if has_default then Done None else Blocks in
  match r with
  | None => not_ready
  | Some l =>
      match h !! l with
      | None => Panics
      | Some c =>
          match chan_recv c with
          | RecvReady v c' => Done (Some (v, <[l := c']> h))
          | RecvNotReady => not_ready
          end
      end
  end.

(** ** cmd/signaling/data_manager.go *)

Definition LIFE_TIME_IN_SECOND : Z := 15.
Definition MAX_BUFFER_NUMBER : nat := 64.

(** The struct. [mu] guards the maps: a section of code that holds it is
    one atomic update below, so the mutex itself carries no state. What
    runs outside the locked sections is a step of its own (see the runs
    further down). *)
Record DManager : Type := mkDManager {
  datas : gmap string nat;   (* map[string]chan types.SignalingInfo *)
  alive : gmap string Z      (* map[string]int *)
}.

(** Program points of the goroutine that [Set] starts:
    [for dmc.alive[id] > 0 { Sleep; dmc.alive[id]-- }; dm.Clean(id)]. *)
Inductive wpc : Type :=
| AtLoopTest    (* about to evaluate dmc.alive[id] > 0 *)
| Sleeping      (* inside time.Sleep(time.Second), decrement pending *)
| AtClean       (* left the loop, about to call dm.Clean(id) *)
| Finished.

#[global] Instance wpc_eq_dec : EqDecision wpc.
Proof. solve_decision. Defined.

Record watchdog : Type := mkWatchdog {
  wd_id : string;
  wd_pc : wpc
}.

(** The state the manager's code works on: the manager, the channel
    objects allocated so far, and the watchdog goroutines started so
    far. *)
Record World : Type := mkWorld {
  dm : DManager;
  heap : list chan;
  dogs : list watchdog
}.

Definition NewDManager : DManager := mkDManager ∅ ∅.

Definition boot : World := mkWorld NewDManager [] [].

Definition Get (id : string) (d : DManager) : chanref := datas d !! id.

(** Reading [alive[id]]: a missing key reads as 0. *)
Definition alive_at (d : DManager) (id : string) : Z := default 0 (alive d !! id).

Definition resetAlive (id : string) (d : DManager) : DManager :=
  mkDManager (datas d) (<[id := LIFE_TIME_IN_SECOND]> (alive d)).

(** [close] panics on a channel that is already closed. *)
Definition Clean (id : string) (w : World) : outcome World :=
  h' ← match datas (dm w) !! id with
       | Some l =>
           match heap w !! l with
           | Some c => if closed c then Panics else Done (<[l := close_chan c]> (heap w))
           | None => Panics
           end
       | None => Done (heap w)
       end;
  Done (mkWorld (mkDManager (delete id (datas (dm w))) (delete id (alive (dm w))))
                h' (dogs w)).

(** The statements of [Set]'s creation block, one by one. *)

(** [dm.datas[id] = make(chan types.SignalingInfo, MAX_BUFFER_NUMBER)] *)
Definition Set_make (id : string) (w : World) : World :=
  mkWorld (mkDManager (<[id := length (heap w)]> (datas (dm w))) (alive (dm w)))
          (heap w ++ [make_chan MAX_BUFFER_NUMBER])
          (dogs w).

(** [dm.resetAlive(id)] *)
Definition Set_reset (id : string) (w : World) : World :=
  mkWorld (resetAlive id (dm w)) (heap w) (dogs w).

(** [go func(dmc *DManager) {...}(dm)] *)
Definition Set_spawn (id : string) (w : World) : World :=
  mkWorld (dm w) (heap w) (dogs w ++ [mkWatchdog id AtLoopTest]).

(** The first half of [Set]: the entry for a peer seen for the first
    time, its counter, and its watchdog. *)
Definition Set_create (id : string) (w : World) : World :=
  match datas (dm w) !! id with
  | None => Set_spawn id (Set_reset id (Set_make id w))
  | Some _ => w
  end.

(** [Set], run from its first statement to its return with nothing in
    between (the name [Set] is reserved here). *)
Definition Set_ (id : string) (info : SignalingInfo) (w : World) : outcome World :=
  let w1 := Set_create id w in
  sel ← select_send true (heap w1) (datas (dm w1) !! id) info;
  match sel with
  | Some h' => Done (Set_reset id (mkWorld (dm w1) h' (dogs w1)))
  | None => Done w1
  end.

(** One step of watchdog [i]: the loop test, the end of the sleep with
    the decrement, or the call of [Clean]. *)
Definition set_pc (i : nat) (id : string) (pc : wpc) (w : World) : World :=
  mkWorld (dm w) (heap w) (<[i := mkWatchdog id pc]> (dogs w)).

Definition watchdog_step (i : nat) (w : World) : outcome World :=
  match dogs w !! i with
  | Some (mkWatchdog id AtLoopTest) =>
      Done (set_pc i id (if decide (0 < alive_at (dm w) id) then Sleeping else AtClean) w)
  | Some (mkWatchdog id Sleeping) =>
      let d := mkDManager (datas (dm w))
                 (<[id := int_wrap (alive_at (dm w) id - 1)]> (alive (dm w))) in
      Done (set_pc i id AtLoopTest (mkWorld d (heap w) (dogs w)))
  | Some (mkWatchdog id AtClean) =>
      w' ← Clean id w; Done (set_pc i id Finished w')
  | Some (mkWatchdog _ Finished) | None => Done w
  end.

(** ** cmd/signaling/server.go *)

(** The [select] of the pull handler: [case v := <-sv.dm.Get(self_id)]
    against [default]. *)
Definition pull_select (self_id : string) (w : World)
    : outcome (option SignalingInfo * World) :=
  sel ← select_recv true (heap w) (Get self_id (dm w));
  match sel with
  | Some (v, h') => Done (Some v, mkWorld (dm w) h' (dogs w))
  | None => Done (None, w)
  end.

(** [encoding/gob] as the two handlers use it. [gob_Encode v] is what
    [gob.NewEncoder(w).Encode(v)] wrote to the response and whether it
    returned an error; [gob_Decode b] is what
    [gob.NewDecoder(r.Body).Decode(&info)] leaves in [info], or [None] for
    an error. The library is not part of the repository: the handlers are
    stated over any such pair. *)
Class Gob : Type := mkGob {
  gob_Encode : SignalingInfo → list byte * bool;
  gob_Decode : list byte → option SignalingInfo
}.

(** What a handler leaves in its [http.ResponseWriter]. The server
    replies 200 unless the handler writes another status. *)
Record ResponseWriter : Type := mkResponse {
  header : gmap string (list string);
  status : Z;
  body : list byte
}.

Definition StatusOK : Z := 200.
Definition StatusBadRequest : Z := 400.

Definition StatusText (code : Z) : string :=
  if decide (code = StatusBadRequest) then "Bad Request"
  else if decide (code = StatusOK) then "OK"
  else "".

Definition new_response : ResponseWriter := mkResponse ∅ StatusOK [].

Definition header_Add (k v : string) (rw : ResponseWriter) : ResponseWriter :=
  mkResponse (<[k := default [] (header rw !! k) ++ [v]]> (header rw)) (status rw) (body rw).

Definition header_Set (k v : string) (rw : ResponseWriter) : ResponseWriter :=
  mkResponse (<[k := [v]]> (header rw)) (status rw) (body rw).

Definition header_Del (k : string) (rw : ResponseWriter) : ResponseWriter :=
  mkResponse (delete k (header rw)) (status rw) (body rw).

Definition WriteHeader (code : Z) (rw : ResponseWriter) : ResponseWriter :=
  mkResponse (header rw) code (body rw).

Definition Write (b : list byte) (rw : ResponseWriter) : ResponseWriter :=
  mkResponse (header rw) (status rw) (body rw ++ b).

(** [http.Error]: plain-text headers, the status, the text and a newline. *)
Definition http_Error (rw : ResponseWriter) (error : string) (code : Z) : ResponseWriter :=
  Write (String.list_byte_of_string error ++ [Byte.x0a])
    (WriteHeader code
       (header_Set "X-Content-Type-Options" "nosniff"
          (header_Set "Content-Type" "text/plain; charset=utf-8"
             (header_Del "Content-Length" rw)))).

(** The handlers, on the route variable and the request body. The
    [logrus] calls have no effect on the response or the state and are
    left out. *)
Definition pull `{Gob} (self_id : string) (w : World) : outcome (ResponseWriter * World) :=
  '(sel, w') ← pull_select self_id w;
  match sel with
  | Some v =>
      let rw := header_Add "Content-Type" "application/binary" new_response in
      (* on an Encode error the handler logs and returns; either way the
         response holds what the encoder wrote *)
      Done (Write (gob_Encode v).1 rw, w')
  | None => Done (new_response, w')
  end.

Definition push `{Gob} (target_id : string) (request_body : list byte) (w : World)
    : outcome (ResponseWriter * World) :=
  match gob_Decode request_body with
  | None =>
      Done (http_Error new_response (StatusText StatusBadRequest) StatusBadRequest, w)
  | Some info =>
      w' ← Set_ target_id info w;
      Done (new_response, w')
  end.

(** ** Runs of the server

    The handlers and the watchdogs are goroutines. [Set] holds the mutex
    only around single statements, so the handlers that call it
    interleave statement by statement, with each other, with the pull
    handlers and with the watchdogs. A [Set] call in flight is at one of
    these program points. *)

Inductive spc : Type :=
| SetTest         (* about to evaluate dm.datas[id] == nil *)
| SetMake         (* about to store the new channel *)
| SetReset        (* about to call resetAlive *)
| SetSpawn        (* about to start the watchdog *)
| SetSend         (* about to run the select *)
| SetResetAgain   (* the send happened, about to call resetAlive *)
| SetReturned.

Record set_call : Type := mkSetCall {
  sc_id : string;
  sc_info : SignalingInfo;
  sc_pc : spc
}.

(** The server: the manager's world and the [Set] calls made so far. *)
Record Server : Type := mkServer {
  world : World;
  calls : list set_call
}.

Definition start : Server := mkServer boot [].

(** One statement of [Set] call [k]. *)
Definition set_step (k : nat) (s : Server) : outcome Server :=
  match calls s !! k with
  | Some (mkSetCall id info pc) =>
      let w := world s in
      let goto pc' w' := mkServer w' (<[k := mkSetCall id info pc']> (calls s)) in
      match pc with
      | SetTest =>
          Done (goto (match datas (dm w) !! id with None => SetMake | Some _ => SetSend end) w)
      | SetMake => Done (goto SetReset (Set_make id w))
      | SetReset => Done (goto SetSpawn (Set_reset id w))
      | SetSpawn => Done (goto SetSend (Set_spawn id w))
      | SetSend =>
          sel ← select_send true (heap w) (datas (dm w) !! id) info;
          match sel with
          | Some h' => Done (goto SetResetAgain (mkWorld (dm w) h' (dogs w)))
          | None => Done (goto SetReturned w)
          end
      | SetResetAgain => Done (goto SetReturned (Set_reset id w))
      | SetReturned => Done s
      end
  | None => Done s
  end.

Inductive event : Type :=
| Enter (id : string) (info : SignalingInfo)   (* a handler calls Set *)
| StepSet (k : nat)                            (* call k runs one statement *)
| StepPull (self_id : string)                  (* a pull handler runs its select *)
| StepDog (i : nat).                           (* watchdog i takes one step *)

Definition fexec (e : event) (s : Server) : outcome Server :=
  match e with
  | Enter id info => Done (mkServer (world s) (calls s ++ [mkSetCall id info SetTest]))
  | StepSet k => set_step k s
  | StepPull self_id =>
      r ← pull_select self_id (world s); Done (mkServer r.2 (calls s))
  | StepDog i =>
      w' ← watchdog_step i (world s); Done (mkServer w' (calls s))
  end.

Fixpoint frun (sched : list event) (s : Server) : outcome Server :=
  match sched with
  | [] => Done s
  | e :: sched' => s' ← fexec e s; frun sched' s'
  end.

(** The states the manager can be in. *)
Definition observable (w : World) : Prop :=
  ∃ sched s, frun sched start = Done s ∧ world s = w.

(** No [Set] call is in flight. *)
Definition quiescent (s : Server) : Prop :=
  ∀ k c, calls s !! k = Some c → sc_pc c = SetReturned.

(** *** Serial runs

    Runs in which no [Set] call is interrupted: whole [Set_] calls, pull
    selects and single watchdog steps interleave. *)

Inductive action : Type :=
| CallSet (id : string) (info : SignalingInfo)
| CallPull (self_id : string)
| Tick (i : nat).

Definition exec (a : action) (w : World) : outcome World :=
  match a with
  | CallSet id info => Set_ id info w
  | CallPull self_id => snd <$> pull_select self_id w
  | Tick i => watchdog_step i w
  end.

Fixpoint run (tr : list action) (w : World) : outcome World :=
  match tr with
  | [] => Done w
  | a :: tr' => w' ← exec a w; run tr' w'
  end.

Definition reachable (w : World) : Prop := ∃ tr, run tr boot = Done w.

(** The schedule of a serial run: each [Set] call runs its statements
    (six at most) without interruption. [n] is the number of calls made
    before. *)
Fixpoint serial (n : nat) (tr : list action) : list event :=
  match tr with
  | [] => []
  | CallSet id info :: tr' => Enter id info :: replicate 6 (StepSet n) ++ serial (S n) tr'
  | CallPull self_id :: tr' => StepPull self_id :: serial n tr'
  | Tick i :: tr' => StepDog i :: serial n tr'
  end.

(** ** What the claims observe *)

(** The envelopes queued for a peer, oldest first; none when the peer has
    no mailbox. *)
Definition queue (w : World) (id : string) : list SignalingInfo :=
  match datas (dm w) !! id with
  | Some l => match heap w !! l with Some c => buf c | None => [] end
  | None => []
  end.

(** How many entries of a list a test accepts. *)
Definition count {A : Type} (f : A → bool) (l : list A) : nat :=
  length (filter (λ x, f x = true) l).

Definition weight {A : Type} (f : A → bool) (x : A) : nat :=
  if f x then 1%nat else 0%nat.

(** The watchdogs of a peer that have not finished. *)
Definition watches (id : string) (d : watchdog) : bool :=
  bool_decide (wd_id d = id) && negb (bool_decide (wd_pc d = Finished)).

Definition watchdogs_of (w : World) (id : string) : nat :=
  count (watches id) (dogs w).

(** [n] pull selects in a row, with what each of them received. *)
Fixpoint pulls (n : nat) (self_id : string) (w : World)
    : outcome (list (option SignalingInfo) * World) :=
  match n with
  | O => Done ([], w)
  | S n' =>
      '(r, w1) ← pull_select self_id w;
      '(rs, w2) ← pulls n' self_id w1;
      Done (r :: rs, w2)
  end.

(** Whether a [Set_] for [id] in state [w] puts its envelope in a queue:
    it does unless the mailbox exists and is full. *)
Definition Set_enqueues (id : string) (w : World) : bool :=
  bool_decide (length (queue w id) < MAX_BUFFER_NUMBER)%nat.

(** A serial run in which no envelope is enqueued for [id]. *)
Fixpoint no_enqueue (id : string) (tr : list action) (w : World) : Prop :=
  match tr with
  | [] => True
  | a :: tr' =>
      match a with
      | CallSet id' _ => id' = id → Set_enqueues id w = false
      | _ => True
      end ∧
      match exec a w with
      | Done w' => no_enqueue id tr' w'
      | _ => True
      end
  end.

Definition is_tick (i : nat) (a : action) : bool :=
  match a with
  | Tick j => bool_decide (i = j)
  | _ => false
  end.

(** The steps watchdog [i] takes in a serial run. *)
Definition ticks_of (i : nat) (tr : list action) : nat := count (is_tick i) tr.

(** The steps a watchdog at program point [pc] with counter [n] has left
    when the counter is not reset: two per pass of the loop (the test,
    then the sleep with its decrement), the failing test and the call of
    [Clean]. *)
Definition steps_left (pc : wpc) (n : Z) : nat :=
  match pc with
  | AtLoopTest => 2 * Z.to_nat n + 2
  | Sleeping => 2 * Z.to_nat n + 1
  | AtClean => 1
  | Finished => 0
  end.

(** Peer [id] is gone: both map entries are removed, the channel [l] it
    had is closed, and its watchdog [i] has finished. *)
Definition cleaned (w : World) (i : nat) (id : string) (l : nat) : Prop :=
  datas (dm w) !! id = None ∧
  alive (dm w) !! id = None ∧
  (∃ c, heap w !! l = Some c ∧ closed c = true) ∧
  dogs w !! i = Some (mkWatchdog id Finished).

(** Whether an action can touch the map entries of peer [id]: a [Set_]
    for [id], or a step of an unfinished watchdog of [id]. *)
Definition concerns (a : action) (w : World) (id : string) : Prop :=
  match a with
  | CallSet id' _ => id' = id
  | CallPull _ => False
  | Tick j => ∃ pc, dogs w !! j = Some (mkWatchdog id pc) ∧ pc ≠ Finished
  end.

(** ** Invariants *)

(** Well-formed mailboxes: what every run keeps. *)
Record Wf (w : World) : Prop := mkWf {
  (* a mailbox's channel exists, is open, has capacity 64 and is within it *)
  wf_chan : ∀ id l, datas (dm w) !! id = Some l →
    ∃ c, heap w !! l = Some c ∧ closed c = false ∧
         cap c = MAX_BUFFER_NUMBER ∧ (length (buf c) ≤ MAX_BUFFER_NUMBER)%nat;
  (* no two peers share a channel *)
  wf_inj : ∀ id1 id2 l,
    datas (dm w) !! id1 = Some l → datas (dm w) !! id2 = Some l → id1 = id2
}.

(** What serial runs keep on top of that. *)
Record Inv (w : World) : Prop := mkInv {
  (* the mailboxes are well-formed *)
  inv_wf : Wf w;
  (* the two maps have the same keys *)
  inv_keys : ∀ id, is_Some (alive (dm w) !! id) ↔ is_Some (datas (dm w) !! id);
  (* the idle counter stays in range *)
  inv_range : ∀ id n, alive (dm w) !! id = Some n → 0 ≤ n ≤ LIFE_TIME_IN_SECOND;
  (* one unfinished watchdog per mailbox, none for other ids *)
  inv_dogs : ∀ id,
    watchdogs_of w id = match datas (dm w) !! id with Some _ => 1%nat | None => 0%nat end;
  (* a watchdog inside Sleep passed the loop test: its counter is positive *)
  inv_sleep : ∀ i id, dogs w !! i = Some (mkWatchdog id Sleeping) →
    1 ≤ alive_at (dm w) id
}.

(** ** pkg/impl *)

Module impl.

(** A [net.Conn] interface value: a connection handle, or nil. *)
Definition netConn : Type := option nat.

(** impl_base.go. [conn] is a [*net.Conn]: nil until [SetConn] stores
    the address of its argument. [lock] guards [conn]; every locked
    section is one atomic read or write (the deferred unlock also runs
    when the section panics), so the mutex carries no state here. *)
Record BaseImpl : Type := mkBaseImpl {
  HId : string;
  conn : option netConn;
  Parent : string;
  PId : string;
  ConnectNow : bool
}.

Definition NewBaseImpl (hid : string) : BaseImpl := mkBaseImpl hid None "" "" true.

Definition IsNeedConnect (base : BaseImpl) : bool := ConnectNow base.

Definition NoNeedConnect (base : BaseImpl) : BaseImpl :=
  mkBaseImpl (HId base) (conn base) (Parent base) (PId base) false.

Definition Init (base : BaseImpl) : BaseImpl := base.

(** [*base.conn]: dereferencing the nil pointer panics. *)
Definition Conn (base : BaseImpl) : outcome netConn :=
  match conn base with
  | Some c => Done c
  | None => Panics
  end.

Definition PairId (base : BaseImpl) : string := PId base.

Definition SetHostId (id : string) (base : BaseImpl) : BaseImpl :=
  mkBaseImpl id (conn base) (Parent base) (PId base) (ConnectNow base).

Definition SetPairId (id : string) (base : BaseImpl) : BaseImpl :=
  mkBaseImpl (HId base) (conn base) (Parent base) id (ConnectNow base).

Definition ParentId (base : BaseImpl) : string := Parent base.

Definition SetParentId (id : string) (base : BaseImpl) : BaseImpl :=
  mkBaseImpl (HId base) (conn base) id (PId base) (ConnectNow base).

Definition SetConn (c : netConn) (base : BaseImpl) : BaseImpl :=
  mkBaseImpl (HId base) (Some c) (Parent base) (PId base) (ConnectNow base).

Definition Reader (base : BaseImpl) : outcome netConn :=
  match conn base with
  | Some c => Done c
  | None => Panics
  end.

Definition Writer (base : BaseImpl) : outcome netConn :=
  match conn base with
  | Some c => Done c
  | None => Panics
  end.

Definition ReadWriteCloser (base : BaseImpl) : outcome netConn :=
  match conn base with
  | Some c => Done c
  | None => Panics
  end.

Definition HostId (base : BaseImpl) : string := HId base.

(** [Close] returns the handles whose [Close] method it called. Calling
    a method of a nil interface value panics. *)
Definition Close (base : BaseImpl) : outcome (list nat) :=
  match conn base with
  | Some (Some h) => Done [h]
  | Some None => Panics
  | None => Done []
  end.

(** [Preper], [Response], [Dial] and [Attach] return nil and change
    nothing. *)
Definition Preper (base : BaseImpl) : BaseImpl := base.
Definition Response (base : BaseImpl) : BaseImpl := base.
Definition Dial_ (base : BaseImpl) : BaseImpl := base.
Definition Attach (c : netConn) (base : BaseImpl) : BaseImpl := base.

(** The method calls that return and may change a [BaseImpl]. *)
Inductive base_call : Type :=
| CallNoNeedConnect
| CallInit
| CallPreper
| CallResponse
| CallDial
| CallAttach (c : netConn)
| CallSetHostId (id : string)
| CallSetPairId (id : string)
| CallSetParentId (id : string)
| CallSetConn (c : netConn).

Definition base_exec (base : BaseImpl) (k : base_call) : BaseImpl :=
  match k with
  | CallNoNeedConnect => NoNeedConnect base
  | CallInit => Init base
  | CallPreper => Preper base
  | CallResponse => Response base
  | CallDial => Dial_ base
  | CallAttach c => Attach c base
  | CallSetHostId id => SetHostId id base
  | CallSetPairId id => SetPairId id base
  | CallSetParentId id => SetParentId id base
  | CallSetConn c => SetConn c base
  end.

Definition base_run (hid : string) (ks : list base_call) : BaseImpl :=
  foldl base_exec (NewBaseImpl hid) ks.

(** The argument of the latest [SetConn] among the calls, if there is one. *)
Definition last_SetConn (ks : list base_call) : option netConn :=
  foldl (λ latest k, match k with CallSetConn c => Some c | _ => latest end) None ks.

(** sender.go *)
Record Sender : Type := mkSender {
  Type_ : Z;               (* int32; [Type] in the source *)
  Sender_PairId : list byte;
  Detach : bool;
  LocalEntry : string;
  Payload : list byte;
  Status : Z               (* int32 *)
}.

(** Go's shifts on [int32] by a count that is not negative: the left
    shift keeps the low 32 bits, the right shift is arithmetic. *)
Definition shl32 (x n : Z) : Z := int32_wrap (Z.shiftl x n).
Definition shr32 (x n : Z) : Z := Z.shiftr x n.

(** What [NewSender] reads from its [Impl] argument and from the
    configuration: the values of [Code()], [HostId()] and [PairId()], the
    gob encoding of the implementation ([None] when the encoder fails)
    and [LocalTCPPort]. *)
Record Impl : Type := mkImpl {
  imp_Code : Z;
  imp_HostId : string;
  imp_PairId : string;
  imp_gob : option (list byte)
}.

(** The [Type] expression of [NewSender]. [flagLen] is declared in
    impl.go, which is not among the sources: it is a parameter. *)
Definition pack_Type (flagLen : Z) (code optCode : Z) : Z :=
  Z.lor (shl32 code flagLen) optCode.

Definition NewSender (flagLen : Z) (LocalTCPPort : Z) (imp : Impl) (optCode : Z)
    : option Sender :=
  match imp_gob imp with
  | None => None
  | Some payload =>
      Some (mkSender (pack_Type flagLen (imp_Code imp) optCode)
                     (String.list_byte_of_string (imp_PairId imp))
                     false
                     ("127.0.0.1:" +:+ pretty LocalTCPPort)
                     payload
                     0)
  end.

Definition GetAppCode (flagLen : Z) (sender : Sender) : Z :=
  shr32 (Type_ sender) flagLen.

Definition GetOptionCode (sender : Sender) : Z :=
  Z.land (Type_ sender) 255.

(** The daemon end of [Send]: [net.Dial], which yields a handle or an
    error; [gob.NewEncoder(conn).Encode(sender)], which yields an error or
    none; [gob.NewDecoder(conn).Decode(sender)], which overwrites the
    sender with the reply and yields an error or none. *)
Record Daemon : Type := mkDaemon {
  Dial : string → nat + string;
  Encode_to : nat → Sender → option string;
  Decode_from : nat → Sender → Sender * option string
}.

(** [Send] returns the connection and the error; the third component is
    the sender after the call (the receiver is a pointer). *)
Definition Send (d : Daemon) (sender : Sender) : netConn * option string * Sender :=
  match Dial d (LocalEntry sender) with
  | inr err => (None, Some err, sender)
  | inl c =>
      match Encode_to d c sender with
      | Some err => (None, Some err, sender)
      | None =>
          let '(reply, derr) := Decode_from d c sender in
          match derr with
          | Some err => (None, Some err, reply)
          | None =>
              if decide (Status reply ≠ 0)
              then (None, Some "response error", reply)
              else (Some c, None, reply)
          end
      end
  end.

Definition SendDetach (d : Daemon) (sender : Sender) : netConn * option string * Sender :=
  Send d (mkSender (Type_ sender) (Sender_PairId sender) true (LocalEntry sender)
                   (Payload sender) (Status sender)).

End impl.

(** ** pkg/impl: what a sequence of calls leaves in a [BaseImpl] *)

(** The argument of the latest [SetHostId], [SetPairId] and [SetParentId]
    among the calls; the value the constructor gave when there is none. *)
Definition last_SetHostId (hid : string) (ks : list impl.base_call) : string :=
  foldl (λ latest k, match k with impl.CallSetHostId id => id | _ => latest end) hid ks.

Definition last_SetPairId (ks : list impl.base_call) : string :=
  foldl (λ latest k, match k with impl.CallSetPairId id => id | _ => latest end) "" ks.

Definition last_SetParentId (ks : list impl.base_call) : string :=
  foldl (λ latest k, match k with impl.CallSetParentId id => id | _ => latest end) "" ks.

(** ** pkg/types: pool.go, [String] *)

(** [fmt.Sprintf("conn_%d_%d_%d", pd.ImplCode, pd.Value, direct)]: [%d]
    prints an integer in decimal, with a minus sign when it is negative. *)
Definition PoolId_String (pd : PoolId) (direct : Z) : string :=
  "conn_" +:+ pretty (ImplCode pd) +:+ "_" +:+ pretty (Value pd) +:+ "_" +:+ pretty direct.

(** Whether a byte occurs in a string. *)
Fixpoint has_byte (c : ascii) (s : string) : bool :=
  match s with
  | EmptyString => false
  | String x s' => bool_decide (x = c) || has_byte c s'
  end.

(** ** pkg/conf: [ClearKnownHosts] *)

Module conf.

(** [s[n:]] *)
Fixpoint string_drop (n : nat) (s : string) : string :=
  match n, s with
  | O, _ => s
  | S n', String _ s' => string_drop n' s'
  | S _, EmptyString => EmptyString
  end.

(** [strings.Contains(s, substr)]: the empty string is contained in every
    string. *)
Fixpoint Contains (s substr : string) : bool :=
  String.prefix substr s ||
  match s with
  | EmptyString => false
  | String _ s' => Contains s' substr
  end.

(** [strings.Replace(s, old, new, 1)]: the first instance of [old] is
    replaced, if there is one. *)
Fixpoint Replace (s old new : string) : string :=
  if String.prefix old s then new +:+ string_drop (String.length old) s
  else match s with
       | EmptyString => EmptyString
       | String c s' => String c (Replace s' old new)
       end.

(** [strings.Split(s, sep)] for a separator of one byte: the pieces
    between the separators, [""] alone for the empty string. *)
Fixpoint Split (s : string) (sep : ascii) : list string :=
  match s with
  | EmptyString => [EmptyString]
  | String c s' =>
      if decide (c = sep) then EmptyString :: Split s' sep
      else match Split s' sep with
           | piece :: pieces => String c piece :: pieces
           | [] => [String c EmptyString]
           end
  end.

(** [strings.Join(elems, sep)] *)
Fixpoint Join (elems : list string) (sep : string) : string :=
  match elems with
  | [] => EmptyString
  | [x] => x
  | x :: rest => x +:+ sep +:+ Join rest sep
  end.

Definition newline : ascii := "010"%char.

(** The loop of [ClearKnownHosts]: the lines that do not contain
    [subStr] are appended to [newLines], in order. *)
Definition filter_lines (lines : list string) (subStr : string) : list string :=
  foldl (λ newLines line, if Contains line subStr then newLines else newLines ++ [line])
        [] lines.

(** The pattern [ClearKnownHosts] looks for. *)
Definition bracketed (subStr : string) : string :=
  Replace subStr "127.0.0.1" "[127.0.0.1]".

(** [ClearKnownHosts], given the value of [$HOME] and what
    [ioutil.ReadFile] yields for a file name ([None] for an error). The
    result is the call of [ioutil.WriteFile] it makes, file name and
    content, or [None] when it returns without writing. *)
Definition ClearKnownHosts (HOME : string) (ReadFile : string → option string)
    (subStr : string) : option (string * string) :=
  let subStr := bracketed subStr in
  let fileName := HOME +:+ "/.ssh/known_hosts" in
  match ReadFile fileName with
  | None => None
  | Some input =>
      let lines := Split input newline in
      let newLines := filter_lines lines subStr in
      let output := Join newLines (String newline EmptyString) in
      Some (fileName, output)
  end.

(** The argument [NewConfManager] calls [ClearKnownHosts] with:
    [fmt.Sprintf("127.0.0.1:%d", tmp.LocalSSHPort)]. *)
Definition local_ssh_entry (LocalSSHPort : Z) : string :=
  "127.0.0.1:" +:+ pretty LocalSSHPort.

End conf.

(** ** Worked examples

    Peer A sends candidate envelopes to peer B; envelope [n] carries [n] as
    the value of its session id. *)

Definition envelope (n : Z) : SignalingInfo :=
  mkSignalingInfo SIG_TYPE_CANDIDATE "A" "" [] (mkPoolId n 0 APP_TYPE_SSH) "B" 0 0.

Definition burst (k : nat) : list SignalingInfo :=
  (λ n, envelope (Z.of_nat n)) <$> seq 0 k.

(** The state a serial run from [boot] ends in. *)
Definition after (tr : list action) : World :=
  match run tr boot with
  | Done w => w
  | _ => boot
  end.

(** The server after a schedule from [start]. *)
Definition after_schedule (sched : list event) : Server :=
  match frun sched start with
  | Done s => s
  | _ => start
  end.

(** B's mailbox filled to capacity by A. *)
Definition full_B : World := after (CallSet "B" <$> burst 64).

(** B's mailbox holding one envelope. *)
Definition one_B : World := after [CallSet "B" (envelope 7)].

(** A stand-in codec for the examples: one byte per envelope, holding
    the low bits of [Flag]. It is not gob. *)
Definition example_gob : Gob :=
  mkGob (λ v, ([default Byte.x00 (Byte.of_N (Z.to_N (Flag v) mod 256))], false))
        (λ b, match b with
              | [x] => Some (mkSignalingInfo (Z.of_N (Byte.to_N x)) "" "" [] (mkPoolId 0 0 0) "" 0 0)
              | _ => None
              end).

(** Two handlers call [Set] for the new peer B at the same time: both
    evaluate [dm.datas[id] == nil] before either stores its channel, then
    each runs to its return. *)
Definition race : list event :=
  [Enter "B" (envelope 1); Enter "B" (envelope 2);
   StepSet 0; StepSet 1;
   StepSet 0; StepSet 0; StepSet 0; StepSet 0; StepSet 0;
   StepSet 1; StepSet 1; StepSet 1; StepSet 1; StepSet 1].

(** After the race both watchdogs run in step: each tests the counter,
    then each ends its sleep. *)
Definition both_dogs_round : list event := [StepDog 0; StepDog 1; StepDog 0; StepDog 1].

Definition race_then_rounds (n : nat) : list event :=
  race ++ concat (replicate n both_dogs_round).

(** A known_hosts file for the examples: an entry of a local daemon on
    port 2222 and an entry of another host, each line ended by a
    newline. *)
Definition example_known_hosts : string :=
  "[127.0.0.1]:2222 ssh-ed25519 AAAA" +:+ String conf.newline
    ("example.org ssh-ed25519 BBBB" +:+ String conf.newline EmptyString).

Definition example_ReadFile (name : string) : option string :=
  if decide (name = "/home/u/.ssh/known_hosts") then Some example_known_hosts else None.

(** B's watchdog between its last loop test and its call of [Clean]: one
    envelope was sent to B, then the counter ran down from 15 to 0 and
    the loop test failed. *)
Definition at_clean_B : World :=
  after (CallSet "B" (envelope 7) :: replicate 31 (Tick 0)).

(** ** Counting watchdogs in the task list *)

Section Counting.
Context {A : Type} (f : A → bool).
Implicit Types (l k : list A) (x y : A) (i j : nat).

Lemma count_nil : count f [] = 0%nat.
Proof. reflexivity. Qed.

Lemma count_cons (x : A) (l : list A) : count f (x :: l) = (weight f x + count f l)%nat.
Proof.
  unfold count, weight. rewrite filter_cons.
  destruct (decide (f x = true)) as [Hx|Hx].
  - by rewrite Hx.
  - by apply not_true_is_false in Hx as ->.
Qed.

Lemma count_app (l k : list A) : count f (l ++ k) = (count f l + count f k)%nat.
Proof. unfold count. by rewrite filter_app, length_app. Qed.

(** Overwriting slot [i] trades the weight of the old entry for the
    weight of the new one. *)
Lemma count_insert (l : list A) (i : nat) (x y : A) :
  l !! i = Some x →
  (count f (<[i := y]> l) + weight f x = count f l + weight f y)%nat.
Proof.
  revert i. induction l as [|z l IH]; intros [|i] Hi; simplify_eq/=.
  - rewrite !count_cons. lia.
  - rewrite !count_cons. specialize (IH i Hi). lia.
Qed.

Lemma count_lookup_pos (l : list A) (i : nat) (x : A) :
  l !! i = Some x → f x = true → (1 ≤ count f l)%nat.
Proof.
  revert i. induction l as [|z l IH]; intros [|i] Hi Hx; simplify_eq/=.
  - rewrite count_cons. unfold weight. rewrite Hx. lia.
  - rewrite count_cons. specialize (IH i Hi Hx). lia.
Qed.

(** When one entry counts, it sits in one slot only. *)
Lemma count_one_unique (l : list A) (i j : nat) (x y : A) :
  count f l = 1%nat → l !! i = Some x → l !! j = Some y →
  f x = true → f y = true → i = j.
Proof.
  revert i j. induction l as [|z l IH]; intros [|i] [|j] Hc Hi Hj Hx Hy;
    simplify_eq/=; try done; rewrite count_cons in Hc; unfold weight in Hc.
  - rewrite Hx in Hc. pose proof (count_lookup_pos l j y Hj Hy). lia.
  - rewrite Hy in Hc. pose proof (count_lookup_pos l i x Hi Hx). lia.
  - f_equal. apply (IH i j); auto.
    pose proof (count_lookup_pos l i x Hi Hx). destruct (f z); lia.
Qed.

Lemma count_zero_lookup (l : list A) (i : nat) (x : A) :
  count f l = 0%nat → l !! i = Some x → f x = false.
Proof.
  intros Hc Hi. destruct (f x) eqn:Hx; [|done].
  pose proof (count_lookup_pos l i x Hi Hx). lia.
Qed.

End Counting.

Lemma watchdogs_of_count (w : World) (id : string) :
  watchdogs_of w id = count (watches id) (dogs w).
Proof. reflexivity. Qed.

Lemma watches_true (id : string) (d : watchdog) :
  watches id d = true ↔ wd_id d = id ∧ wd_pc d ≠ Finished.
Proof.
  unfold watches. rewrite andb_true_iff, negb_true_iff.
  rewrite bool_decide_eq_true, bool_decide_eq_false. done.
Qed.

Lemma watches_other (id id' : string) (pc : wpc) :
  id ≠ id' → watches id' (mkWatchdog id pc) = false.
Proof.
  intros Hne. destruct (watches id' (mkWatchdog id pc)) eqn:E; [|done].
  apply watches_true in E as [? _]. done.
Qed.

Lemma watches_live (id : string) (pc : wpc) :
  pc ≠ Finished → watches id (mkWatchdog id pc) = true.
Proof. intros. by apply watches_true. Qed.

Lemma watches_finished (id id' : string) :
  watches id' (mkWatchdog id Finished) = false.
Proof.
  destruct (watches id' (mkWatchdog id Finished)) eqn:E; [|done].
  apply watches_true in E as [_ ?]. done.
Qed.

Lemma int_wrap_small (z : Z) : - 2 ^ 63 ≤ z < 2 ^ 63 → int_wrap z = z.
Proof.
  intros Hz. unfold int_wrap, wrap.
  change (2 ^ (64 - 1)) with (2 ^ 63). rewrite Z.mod_small; lia.
Qed.

Lemma bind_Done {A B : Type} (a : A) (k : A → outcome B) : Done a ≫= k = k a.
Proof. reflexivity. Qed.

Lemma alive_at_lookup (d : DManager) (id : string) (n : Z) :
  alive d !! id = Some n → alive_at d id = n.
Proof. unfold alive_at. by intros ->. Qed.

(** ** Well-formed mailboxes are kept by every statement *)

Lemma Wf_boot : Wf boot.
Proof. split; simpl; intros *; rewrite ?lookup_empty; done. Qed.

(** Statements that touch neither [datas] nor the channels. *)
Lemma Wf_frame (w w' : World) :
  datas (dm w') = datas (dm w) → heap w' = heap w → Wf w → Wf w'.
Proof.
  intros Hd Hh HW. split; rewrite Hd, ?Hh; apply HW.
Qed.

(** Replacing a mailbox's channel object by another open one within
    capacity. *)
Lemma Wf_update_chan (w : World) (id : string) (l : nat) (c' : chan) :
  Wf w → datas (dm w) !! id = Some l →
  closed c' = false → cap c' = MAX_BUFFER_NUMBER →
  (length (buf c') ≤ MAX_BUFFER_NUMBER)%nat →
  Wf (mkWorld (dm w) (<[l := c']> (heap w)) (dogs w)).
Proof.
  intros HW Hl Hcl Hcap Hlen.
  destruct (wf_chan w HW id l Hl) as (c & Hc & _).
  split; simpl; [|apply HW].
  intros id' l' Hl'. destruct (decide (l' = l)) as [->|Hne].
  - exists c'. rewrite list_lookup_insert_eq by (by eapply lookup_lt_Some). done.
  - rewrite list_lookup_insert_ne by done. by apply (wf_chan w HW id').
Qed.

(** Storing a new channel for [id], whether or not [id] had one. *)
Lemma Wf_Set_make (id : string) (w : World) : Wf w → Wf (Set_make id w).
Proof.
  intros HW. split; simpl.
  - intros id' l. rewrite lookup_insert. case_decide as Hid.
    + intros [= <-]. exists (make_chan MAX_BUFFER_NUMBER).
      rewrite lookup_app_r, Nat.sub_diag by lia. simpl.
      unfold MAX_BUFFER_NUMBER. repeat split; lia.
    + intros Hl. destruct (wf_chan w HW id' l Hl) as (c & Hc & ?).
      exists c. split; [|done]. by apply lookup_app_l_Some.
  - intros id1 id2 l. rewrite !lookup_insert.
    repeat case_decide; subst; try done.
    + intros [= <-] Hl. destruct (wf_chan w HW _ _ Hl) as (c & Hc & _).
      apply lookup_lt_Some in Hc. lia.
    + intros Hl [= <-]. destruct (wf_chan w HW _ _ Hl) as (c & Hc & _).
      apply lookup_lt_Some in Hc. lia.
    + apply (wf_inj w HW).
Qed.

Lemma Wf_Set_reset (id : string) (w : World) : Wf w → Wf (Set_reset id w).
Proof. by apply Wf_frame. Qed.

Lemma Wf_Set_spawn (id : string) (w : World) : Wf w → Wf (Set_spawn id w).
Proof. by apply Wf_frame. Qed.

Lemma Wf_Set_create (id : string) (w : World) : Wf w → Wf (Set_create id w).
Proof.
  intros HW. unfold Set_create. destruct (datas (dm w) !! id); [done|].
  by apply Wf_Set_spawn, Wf_Set_reset, Wf_Set_make.
Qed.

Lemma Set_create_present (id : string) (w : World) :
  is_Some (datas (dm (Set_create id w)) !! id).
Proof.
  unfold Set_create. destruct (datas (dm w) !! id) eqn:E; simpl.
  - by rewrite E.
  - rewrite lookup_insert_eq. eauto.
Qed.

(** *** [Set_]: the three cases of a call *)

(** The peer has a mailbox with room: the envelope goes to the tail and
    the counter is reset. *)
Lemma Set_room (id : string) (info : SignalingInfo) (w : World) (l : nat) (c : chan) :
  datas (dm w) !! id = Some l → heap w !! l = Some c →
  closed c = false → (length (buf c) < cap c)%nat →
  Set_ id info w =
    Done (mkWorld (resetAlive id (dm w))
                  (<[l := mkChan (buf c ++ [info]) (cap c) false]> (heap w)) (dogs w)).
Proof.
  intros Hl Hc Hcl Hlen. unfold Set_, Set_create. rewrite Hl. simpl.
  rewrite Hl. simpl. rewrite Hc. unfold chan_send. rewrite Hcl.
  rewrite decide_True by done. done.
Qed.

(** The peer has a full mailbox: nothing changes. *)
Lemma Set_full (id : string) (info : SignalingInfo) (w : World) (l : nat) (c : chan) :
  datas (dm w) !! id = Some l → heap w !! l = Some c →
  closed c = false → (cap c ≤ length (buf c))%nat →
  Set_ id info w = Done w.
Proof.
  intros Hl Hc Hcl Hlen. unfold Set_, Set_create. rewrite Hl. simpl.
  rewrite Hl. simpl. rewrite Hc. unfold chan_send. rewrite Hcl.
  rewrite decide_False by lia. done.
Qed.

(** The peer has no mailbox: one is created and receives the envelope. *)
Lemma Set_absent (id : string) (info : SignalingInfo) (w : World) :
  datas (dm w) !! id = None →
  Set_ id info w =
    Done (mkWorld
            (mkDManager (<[id := length (heap w)]> (datas (dm w)))
                        (<[id := LIFE_TIME_IN_SECOND]> (alive (dm w))))
            (heap w ++ [mkChan [info] MAX_BUFFER_NUMBER false])
            (dogs w ++ [mkWatchdog id AtLoopTest])).
Proof.
  intros Hl. unfold Set_, Set_create. rewrite Hl. simpl.
  rewrite lookup_insert_eq. simpl.
  rewrite lookup_app_r, Nat.sub_diag by lia. simpl.
  unfold Set_reset, resetAlive. simpl. rewrite insert_insert_eq.
  do 3 f_equal.
  rewrite insert_app_r_alt, Nat.sub_diag by lia. done.
Qed.

Lemma Set_cases (id : string) (info : SignalingInfo) (w : World) :
  Wf w →
  (∃ l c, datas (dm w) !! id = Some l ∧ heap w !! l = Some c ∧ closed c = false ∧
          (length (buf c) < cap c)%nat ∧ cap c = MAX_BUFFER_NUMBER ∧
          Set_ id info w =
            Done (mkWorld (resetAlive id (dm w))
                    (<[l := mkChan (buf c ++ [info]) (cap c) false]> (heap w)) (dogs w))) ∨
  (datas (dm w) !! id = None ∧
   Set_ id info w =
     Done (mkWorld
             (mkDManager (<[id := length (heap w)]> (datas (dm w)))
                         (<[id := LIFE_TIME_IN_SECOND]> (alive (dm w))))
             (heap w ++ [mkChan [info] MAX_BUFFER_NUMBER false])
             (dogs w ++ [mkWatchdog id AtLoopTest]))) ∨
  (∃ l c, datas (dm w) !! id = Some l ∧ heap w !! l = Some c ∧
          length (buf c) = MAX_BUFFER_NUMBER ∧ Set_ id info w = Done w).
Proof.
  intros HW. destruct (datas (dm w) !! id) as [l|] eqn:El.
  - destruct (wf_chan w HW id l El) as (c & Hc & Hcl & Hcap & Hlen).
    destruct (decide (length (buf c) < cap c)%nat) as [Hlt|Hge].
    + left. exists l, c. repeat split; try done. by apply Set_room.
    + right. right. exists l, c. repeat split; try done; [lia|].
      apply (Set_full id info w l c); (done || lia).
  - right. left. split; [done|]. by apply Set_absent.
Qed.

Lemma Wf_Set (id : string) (info : SignalingInfo) (w w' : World) :
  Wf w → Set_ id info w = Done w' → Wf w'.
Proof.
  intros HW Hs.
  destruct (Set_cases id info w HW)
    as [(l & c & El & Hc & Hcl & Hlt & Hcap & Hs')|[(El & Hs')|(l & c & _ & _ & _ & Hs')]];
    rewrite Hs' in Hs; injection Hs as <-.
  - apply (Wf_frame (mkWorld (dm w) (<[l := mkChan (buf c ++ [info]) (cap c) false]> (heap w))
                             (dogs w))); [done..|].
    apply (Wf_update_chan w id); simpl; try done.
    rewrite length_app. simpl. lia.
  - apply (Wf_frame (mkWorld (dm (Set_make id w))
                       (<[length (heap w) := mkChan [info] MAX_BUFFER_NUMBER false]>
                          (heap (Set_make id w)))
                       (dogs w))); simpl; [done| |].
    + by rewrite insert_app_r_alt, Nat.sub_diag by lia.
    + apply (Wf_update_chan (Set_make id w) id); simpl;
        [by apply Wf_Set_make|apply lookup_insert_eq|done|done|].
      unfold MAX_BUFFER_NUMBER. lia.
  - done.
Qed.

(** On well-formed mailboxes [Set_] returns: it neither blocks nor
    panics. *)
Lemma Set_returns (id : string) (info : SignalingInfo) (w : World) :
  Wf w → ∃ w', Set_ id info w = Done w'.
Proof.
  intros HW.
  destruct (Set_cases id info w HW)
    as [(l & c & _ & _ & _ & _ & _ & Hs)|[(_ & Hs)|(l & c & _ & _ & _ & Hs)]]; eauto.
Qed.

(** *** Queues *)

Lemma queue_lookup (w : World) (id : string) (l : nat) (c : chan) :
  datas (dm w) !! id = Some l → heap w !! l = Some c → queue w id = buf c.
Proof. intros Hl Hc. unfold queue. by rewrite Hl, Hc. Qed.

Lemma queue_absent (w : World) (id : string) :
  datas (dm w) !! id = None → queue w id = [].
Proof. intros Hl. unfold queue. by rewrite Hl. Qed.

Lemma queue_present (w : World) (id : string) :
  queue w id ≠ [] → is_Some (datas (dm w) !! id).
Proof.
  intros Hq. destruct (datas (dm w) !! id) eqn:El; [eauto|].
  by rewrite queue_absent in Hq.
Qed.

Lemma Wf_queue_bound (w : World) (id : string) :
  Wf w → (length (queue w id) ≤ MAX_BUFFER_NUMBER)%nat.
Proof.
  intros HW. destruct (datas (dm w) !! id) as [l|] eqn:El.
  - destruct (wf_chan w HW id l El) as (c & Hc & _ & _ & Hlen).
    by rewrite (queue_lookup w id l c).
  - rewrite queue_absent by done. simpl. lia.
Qed.

(** [Set_] on a mailbox with room, or on no mailbox: the envelope becomes
    the newest element and the counter is 15. *)
Lemma Set_enqueue (id : string) (info : SignalingInfo) (w : World) :
  Wf w → (length (queue w id) < MAX_BUFFER_NUMBER)%nat →
  ∃ w', Set_ id info w = Done w' ∧
        queue w' id = queue w id ++ [info] ∧
        alive (dm w') !! id = Some LIFE_TIME_IN_SECOND.
Proof.
  intros HW Hlen.
  destruct (Set_cases id info w HW)
    as [(l & c & El & Hc & Hcl & Hlt & Hcap & Hs)|[(El & Hs)|(l & c & El & Hc & Hfull & Hs)]].
  - rewrite (queue_lookup w id l c) by done.
    eexists; split; [done|]. split.
    + unfold queue. simpl. rewrite El.
      by rewrite list_lookup_insert_eq by (by eapply lookup_lt_Some).
    + simpl. apply lookup_insert_eq.
  - rewrite queue_absent by done.
    eexists; split; [done|]. split.
    + unfold queue. simpl. rewrite lookup_insert_eq.
      by rewrite lookup_app_r, Nat.sub_diag by lia.
    + simpl. apply lookup_insert_eq.
  - rewrite (queue_lookup w id l c) in Hlen by done. lia.
Qed.

(** [Set_] on a full mailbox returns the state it was given. *)
Lemma Set_drop (id : string) (info : SignalingInfo) (w : World) :
  Wf w → length (queue w id) = MAX_BUFFER_NUMBER → Set_ id info w = Done w.
Proof.
  intros HW Hlen.
  destruct (Set_cases id info w HW)
    as [(l & c & El & Hc & Hcl & Hlt & Hcap & Hs)|[(El & Hs)|(l & c & El & Hc & Hfull & Hs)]].
  - rewrite (queue_lookup w id l c) in Hlen by done. lia.
  - rewrite queue_absent in Hlen by done. done.
  - done.
Qed.

Lemma run_cons (a : action) (tr : list action) (w : World) :
  run (a :: tr) w = exec a w ≫= run tr.
Proof. reflexivity. Qed.


Lemma run_Sets (id : string) (es : list SignalingInfo) (w : World) :
  Wf w → (length (queue w id) + length es ≤ MAX_BUFFER_NUMBER)%nat →
  ∃ w', run (CallSet id <$> es) w = Done w' ∧ Wf w' ∧
        queue w' id = queue w id ++ es.
Proof.
  revert w. induction es as [|e es IH]; intros w HW Hlen.
  - exists w. by rewrite app_nil_r.
  - rewrite length_cons in Hlen.
    destruct (Set_enqueue id e w HW) as (w1 & Hw1 & Hq1 & _); [lia|].
    rewrite fmap_cons, run_cons.
    change (exec (CallSet id e) w) with (Set_ id e w).
    rewrite Hw1, bind_Done.
    destruct (IH w1) as (w' & Hw' & HW' & Hq').
    + by eapply Wf_Set.
    + rewrite Hq1, length_app. simpl. lia.
    + exists w'. rewrite Hw', Hq', Hq1, <- app_assoc. done.
Qed.

(** Further [Set_] calls on a full mailbox change nothing. *)
Lemma run_Sets_full (id : string) (more : list SignalingInfo) (w : World) :
  Wf w → length (queue w id) = MAX_BUFFER_NUMBER →
  run (CallSet id <$> more) w = Done w.
Proof.
  intros HW Hlen. induction more as [|e more IH]; [done|].
  rewrite fmap_cons, run_cons.
  change (exec (CallSet id e) w) with (Set_ id e w).
  by rewrite Set_drop, bind_Done.
Qed.

(** *** The pull select *)

(** No mailbox, or an empty one: the default case runs. *)
Lemma pull_select_absent (self_id : string) (w : World) :
  datas (dm w) !! self_id = None → pull_select self_id w = Done (None, w).
Proof. intros Hl. unfold pull_select, Get. by rewrite Hl. Qed.

Lemma pull_select_empty (self_id : string) (w : World) (l : nat) (c : chan) :
  datas (dm w) !! self_id = Some l → heap w !! l = Some c →
  closed c = false → buf c = [] →
  pull_select self_id w = Done (None, w).
Proof.
  intros Hl Hc Hcl Hb. unfold pull_select, Get. rewrite Hl. simpl.
  rewrite Hc. unfold chan_recv. by rewrite Hb, Hcl.
Qed.

(** A queued envelope: the oldest one is taken. *)
Lemma pull_select_head (self_id : string) (w : World) (l : nat) (c : chan)
    (v : SignalingInfo) (q : list SignalingInfo) :
  datas (dm w) !! self_id = Some l → heap w !! l = Some c → buf c = v :: q →
  pull_select self_id w =
    Done (Some v, mkWorld (dm w) (<[l := mkChan q (cap c) (closed c)]> (heap w)) (dogs w)).
Proof.
  intros Hl Hc Hb. unfold pull_select, Get. rewrite Hl. simpl.
  rewrite Hc. unfold chan_recv. by rewrite Hb.
Qed.

Lemma pull_select_cases (self_id : string) (w : World) :
  Wf w →
  pull_select self_id w = Done (None, w) ∨
  ∃ l c v q, datas (dm w) !! self_id = Some l ∧ heap w !! l = Some c ∧
             closed c = false ∧ cap c = MAX_BUFFER_NUMBER ∧ buf c = v :: q ∧
             (length q < MAX_BUFFER_NUMBER)%nat ∧
             pull_select self_id w =
               Done (Some v, mkWorld (dm w) (<[l := mkChan q (cap c) (closed c)]> (heap w))
                                     (dogs w)).
Proof.
  intros HW. destruct (datas (dm w) !! self_id) as [l|] eqn:El.
  - destruct (wf_chan w HW self_id l El) as (c & Hc & Hcl & Hcap & Hlen).
    destruct (buf c) as [|v q] eqn:Hb.
    + left. by apply (pull_select_empty self_id w l c).
    + right. exists l, c, v, q. simpl in Hlen.
      split_and!; first [done | lia | by apply pull_select_head].
  - left. by apply pull_select_absent.
Qed.

Lemma Wf_pull_select (self_id : string) (w w' : World) (r : option SignalingInfo) :
  Wf w → pull_select self_id w = Done (r, w') → Wf w'.
Proof.
  intros HW Hp.
  destruct (pull_select_cases self_id w HW)
    as [Hp'|(l & c & v & q & El & Hc & Hcl & Hcap & Hb & Hlen & Hp')];
    rewrite Hp' in Hp; injection Hp as <- <-; [done|].
  apply (Wf_update_chan w self_id); simpl; try done. lia.
Qed.

Lemma pull_select_returns (self_id : string) (w : World) :
  Wf w → ∃ r w', pull_select self_id w = Done (r, w').
Proof.
  intros HW.
  destruct (pull_select_cases self_id w HW)
    as [Hp'|(l & c & v & q & _ & _ & _ & _ & _ & _ & Hp')]; eauto.
Qed.

(** Replacing the channel object of one peer leaves the queues of the
    other peers as they were. *)
Lemma queue_update_other (w : World) (id id' : string) (l : nat) (c' : chan) :
  Wf w → datas (dm w) !! id = Some l → id' ≠ id →
  queue (mkWorld (dm w) (<[l := c']> (heap w)) (dogs w)) id' = queue w id'.
Proof.
  intros HW El Hne. unfold queue. simpl.
  destruct (datas (dm w) !! id') as [l'|] eqn:El'; [|done].
  rewrite list_lookup_insert_ne; [done|].
  intros ->. apply Hne. by apply (wf_inj w HW id' id l').
Qed.

Lemma pull_select_frame (self_id : string) (w w' : World) (r : option SignalingInfo) :
  Wf w → pull_select self_id w = Done (r, w') →
  dm w' = dm w ∧ dogs w' = dogs w ∧
  ∀ id', id' ≠ self_id → queue w' id' = queue w id'.
Proof.
  intros HW Hp.
  destruct (pull_select_cases self_id w HW)
    as [Hp'|(l & c & v & q & El & Hc & Hcl & Hcap & Hb & Hlen & Hp')];
    rewrite Hp' in Hp; injection Hp as <- <-; [done|].
  split; [done|]. split; [done|]. intros id' Hne.
  by apply (queue_update_other w self_id).
Qed.

Lemma pull_select_queue (self_id : string) (w : World) (v : SignalingInfo)
    (q : list SignalingInfo) :
  Wf w → queue w self_id = v :: q →
  ∃ w', pull_select self_id w = Done (Some v, w') ∧ Wf w' ∧
        queue w' self_id = q ∧ dm w' = dm w ∧ dogs w' = dogs w.
Proof.
  intros HW Hq.
  destruct (queue_present w self_id) as [l El]; [by rewrite Hq|].
  destruct (wf_chan w HW self_id l El) as (c & Hc & Hcl & Hcap & _).
  rewrite (queue_lookup w self_id l c) in Hq by done.
  pose proof (pull_select_head self_id w l c v q El Hc Hq) as Hp.
  eexists; split; [done|]. split; [by eapply Wf_pull_select|].
  split; [|done]. unfold queue. simpl. rewrite El.
  by rewrite list_lookup_insert_eq by (by eapply lookup_lt_Some).
Qed.

Lemma pull_select_none (self_id : string) (w : World) :
  Wf w → queue w self_id = [] → pull_select self_id w = Done (None, w).
Proof.
  intros HW Hq. destruct (datas (dm w) !! self_id) as [l|] eqn:El.
  - destruct (wf_chan w HW self_id l El) as (c & Hc & Hcl & _).
    rewrite (queue_lookup w self_id l c) in Hq by done.
    by apply (pull_select_empty self_id w l c).
  - by apply pull_select_absent.
Qed.

(** As many pulls as there are queued envelopes deliver them oldest
    first and leave the queue empty. *)
Lemma pulls_drain (self_id : string) (q : list SignalingInfo) (w : World) :
  Wf w → queue w self_id = q →
  ∃ w', pulls (length q) self_id w = Done (Some <$> q, w') ∧ Wf w' ∧
        queue w' self_id = [].
Proof.
  revert w. induction q as [|v q IH]; intros w HW Hq; simpl.
  - by exists w.
  - destruct (pull_select_queue self_id w v q HW Hq) as (w1 & -> & HW1 & Hq1 & _).
    simpl. destruct (IH w1 HW1 Hq1) as (w' & -> & HW' & Hq'). simpl.
    by exists w'.
Qed.

(** *** The watchdog on well-formed mailboxes *)

Lemma Clean_live (w : World) (id : string) (l : nat) (c : chan) :
  datas (dm w) !! id = Some l → heap w !! l = Some c → closed c = false →
  Clean id w =
    Done (mkWorld (mkDManager (delete id (datas (dm w))) (delete id (alive (dm w))))
                  (<[l := close_chan c]> (heap w)) (dogs w)).
Proof. intros Hl Hc Hcl. unfold Clean. by rewrite Hl, Hc, Hcl. Qed.

Lemma Clean_absent (w : World) (id : string) :
  datas (dm w) !! id = None →
  Clean id w =
    Done (mkWorld (mkDManager (delete id (datas (dm w))) (delete id (alive (dm w))))
                  (heap w) (dogs w)).
Proof. intros Hl. unfold Clean. by rewrite Hl. Qed.

(** [Clean] closes the channel only after taking it out of [datas]'s
    reach: the mailboxes that remain are well-formed. *)
Lemma Wf_Clean (id : string) (w : World) :
  Wf w → ∃ w', Clean id w = Done w' ∧ Wf w' ∧ dogs w' = dogs w.
Proof.
  intros HW. destruct (datas (dm w) !! id) as [l|] eqn:El.
  - destruct (wf_chan w HW id l El) as (c & Hc & Hcl & _).
    rewrite (Clean_live w id l c) by done.
    eexists; split; [done|]. split; [|done]. split; simpl.
    + intros id' l'. rewrite lookup_delete. case_decide; [done|]. intros Hl'.
      assert (l' ≠ l) as Hne.
      { intros ->. by pose proof (wf_inj w HW _ _ _ El Hl'). }
      rewrite list_lookup_insert_ne by done. by apply (wf_chan w HW id').
    + intros id1 id2 l'. rewrite !lookup_delete. repeat case_decide; try done.
      apply (wf_inj w HW).
  - rewrite Clean_absent by done.
    eexists; split; [done|]. split; [|done]. split; simpl.
    + intros id' l'. rewrite lookup_delete. case_decide; [done|].
      apply (wf_chan w HW id').
    + intros id1 id2 l'. rewrite !lookup_delete. repeat case_decide; try done.
      apply (wf_inj w HW).
Qed.

Lemma Wf_watchdog_step (i : nat) (w : World) :
  Wf w → ∃ w', watchdog_step i w = Done w' ∧ Wf w'.
Proof.
  intros HW. unfold watchdog_step.
  destruct (dogs w !! i) as [[id pc]|] eqn:Hi; [|eauto].
  destruct pc.
  - eexists; split; [done|]. by apply (Wf_frame w).
  - eexists; split; [done|]. by apply (Wf_frame w).
  - destruct (Wf_Clean id w HW) as (w' & -> & HW' & _). simpl.
    eexists; split; [done|]. by apply (Wf_frame w').
  - eauto.
Qed.

(** ** Every observable state has well-formed mailboxes *)

Lemma Wf_set_step (k : nat) (s : Server) :
  Wf (world s) → ∃ s', set_step k s = Done s' ∧ Wf (world s').
Proof.
  intros HW. unfold set_step.
  destruct (calls s !! k) as [[id info pc]|] eqn:Hk; [|eauto].
  destruct pc; try (eexists; split; [done|]; simpl; done).
  - eexists; split; [done|]. simpl. by apply Wf_Set_make.
  - eexists; split; [done|]. simpl. by apply Wf_Set_reset.
  - eexists; split; [done|]. simpl. by apply Wf_Set_spawn.
  - unfold select_send.
    destruct (datas (dm (world s)) !! id) as [l|] eqn:El; simpl; [|eauto].
    destruct (wf_chan _ HW id l El) as (c & Hc & Hcl & Hcap & Hlen).
    rewrite Hc. unfold chan_send. rewrite Hcl. case_decide as Hlt; simpl.
    + eexists; split; [done|]. simpl.
      apply (Wf_update_chan (world s) id); simpl; try done.
      rewrite length_app. simpl. lia.
    + eauto.
  - eexists; split; [done|]. simpl. by apply Wf_Set_reset.
Qed.

Lemma Wf_fexec (e : event) (s : Server) :
  Wf (world s) → ∃ s', fexec e s = Done s' ∧ Wf (world s').
Proof.
  intros HW. destruct e as [id info|k|self_id|i]; simpl.
  - eauto.
  - by apply Wf_set_step.
  - destruct (pull_select_returns self_id (world s) HW) as (r & w' & Hp).
    rewrite Hp. simpl. eexists; split; [done|]. simpl. by eapply Wf_pull_select.
  - destruct (Wf_watchdog_step i (world s) HW) as (w' & -> & HW'). simpl. eauto.
Qed.

(** Every schedule runs: no statement blocks or panics. *)
Lemma Wf_frun (sched : list event) (s : Server) :
  Wf (world s) → ∃ s', frun sched s = Done s' ∧ Wf (world s').
Proof.
  revert s. induction sched as [|e sched IH]; intros s HW; simpl; [eauto|].
  destruct (Wf_fexec e s HW) as (s1 & -> & HW1). simpl. by apply IH.
Qed.

Lemma observable_Wf (w : World) : observable w → Wf w.
Proof.
  intros (sched & s & Hrun & <-).
  destruct (Wf_frun sched start Wf_boot) as (s' & Hs' & HW). congruence.
Qed.

(** ** A [Set] call that is not interrupted is [Set_] *)

Lemma set_step_last (w : World) (cs : list set_call) (id : string)
    (info : SignalingInfo) (pc : spc) :
  set_step (length cs) (mkServer w (cs ++ [mkSetCall id info pc])) =
  let at_ pc' w' := mkServer w' (cs ++ [mkSetCall id info pc']) in
  match pc with
  | SetTest =>
      Done (at_ (match datas (dm w) !! id with None => SetMake | Some _ => SetSend end) w)
  | SetMake => Done (at_ SetReset (Set_make id w))
  | SetReset => Done (at_ SetSpawn (Set_reset id w))
  | SetSpawn => Done (at_ SetSend (Set_spawn id w))
  | SetSend =>
      sel ← select_send true (heap w) (datas (dm w) !! id) info;
      match sel with
      | Some h' => Done (at_ SetResetAgain (mkWorld (dm w) h' (dogs w)))
      | None => Done (at_ SetReturned w)
      end
  | SetResetAgain => Done (at_ SetReturned (Set_reset id w))
  | SetReturned => Done (at_ SetReturned w)
  end.
Proof.
  assert (∀ c c' : set_call, <[length cs := c']> (cs ++ [c]) = cs ++ [c']) as Hins.
  { intros c c'. by rewrite insert_app_r_alt, Nat.sub_diag by lia. }
  unfold set_step. simpl.
  rewrite lookup_app_r, Nat.sub_diag by lia. simpl.
  destruct pc; simpl; rewrite ?Hins; done.
Qed.

Lemma frun_cons (e : event) (sched : list event) (s : Server) :
  frun (e :: sched) s = fexec e s ≫= frun sched.
Proof. reflexivity. Qed.

Lemma frun_app (sched1 sched2 : list event) (s : Server) :
  frun (sched1 ++ sched2) s = frun sched1 s ≫= frun sched2.
Proof.
  revert s. induction sched1 as [|e sched1 IH]; intros s; simpl; [done|].
  destruct (fexec e s); simpl; auto.
Qed.

(** Steps of a call that has returned change nothing. *)
Lemma frun_returned (n : nat) (w : World) (cs : list set_call) (id : string)
    (info : SignalingInfo) :
  frun (replicate n (StepSet (length cs))) (mkServer w (cs ++ [mkSetCall id info SetReturned]))
  = Done (mkServer w (cs ++ [mkSetCall id info SetReturned])).
Proof.
  induction n as [|n IH]; [done|].
  cbn [replicate]. rewrite frun_cons. cbn [fexec].
  by rewrite set_step_last, bind_Done.
Qed.

(** From the select on, an uninterrupted call does what the second half
    of [Set_] does. *)
Lemma frun_from_send (n : nat) (w : World) (cs : list set_call) (id : string)
    (info : SignalingInfo) :
  frun (replicate (S (S n)) (StepSet (length cs)))
       (mkServer w (cs ++ [mkSetCall id info SetSend]))
  = sel ← select_send true (heap w) (datas (dm w) !! id) info;
    match sel with
    | Some h' =>
        Done (mkServer (Set_reset id (mkWorld (dm w) h' (dogs w)))
                       (cs ++ [mkSetCall id info SetReturned]))
    | None => Done (mkServer w (cs ++ [mkSetCall id info SetReturned]))
    end.
Proof.
  cbn [replicate]. rewrite frun_cons. cbn [fexec]. rewrite set_step_last.
  destruct (select_send true (heap w) (datas (dm w) !! id) info) as [[h'|]| |];
    cbn; try done.
  - rewrite set_step_last. cbn. apply frun_returned.
  - rewrite set_step_last. cbn. apply frun_returned.
Qed.

Lemma Set_uninterrupted (id : string) (info : SignalingInfo) (s : Server) :
  frun (Enter id info :: replicate 6 (StepSet (length (calls s)))) s
  = w' ← Set_ id info (world s);
    Done (mkServer w' (calls s ++ [mkSetCall id info SetReturned])).
Proof.
  destruct s as [w cs]. rewrite frun_cons. cbn [fexec world calls]. rewrite bind_Done.
  unfold Set_, Set_create.
  destruct (datas (dm w) !! id) as [l|] eqn:El.
  - (* the peer has a mailbox: the test, then the select *)
    change (replicate 6 (StepSet (length cs)))
      with (StepSet (length cs) :: replicate 5 (StepSet (length cs))).
    rewrite frun_cons. cbn [fexec]. rewrite set_step_last. cbn zeta.
    rewrite El, bind_Done. rewrite (frun_from_send 3). cbn zeta.
    rewrite El.
    by destruct (select_send true (heap w) (Some l) info) as [[h'|]| |].
  - (* a new peer: test, make, reset, spawn, then the select *)
    change (replicate 6 (StepSet (length cs)))
      with ([StepSet (length cs); StepSet (length cs); StepSet (length cs);
             StepSet (length cs)] ++ replicate 2 (StepSet (length cs))).
    rewrite frun_app. cbn [frun fexec].
    rewrite set_step_last. cbn zeta. rewrite El, bind_Done.
    rewrite set_step_last. cbn zeta. rewrite bind_Done.
    rewrite set_step_last. cbn zeta. rewrite bind_Done.
    rewrite set_step_last. cbn zeta. rewrite !bind_Done.
    rewrite (frun_from_send 0). cbn zeta.
    by destruct (select_send true _ _ info) as [[h'|]| |].
Qed.

(** A serial run is the run of its schedule. *)
Lemma serial_run (tr : list action) (s : Server) (w' : World) :
  run tr (world s) = Done w' →
  ∃ s', frun (serial (length (calls s)) tr) s = Done s' ∧ world s' = w'.
Proof.
  revert s. induction tr as [|a tr IH]; intros s Hrun.
  { injection Hrun as <-. by exists s. }
  rewrite run_cons in Hrun.
  destruct (exec a (world s)) as [w1| |] eqn:Hex; try done.
  rewrite bind_Done in Hrun.
  destruct a as [id info|self_id|i]; cbn [serial exec] in *.
  - rewrite app_comm_cons, frun_app, Set_uninterrupted, Hex, !bind_Done.
    destruct (IH (mkServer w1 (calls s ++ [mkSetCall id info SetReturned])) Hrun)
      as (s' & Hs' & Hw').
    exists s'. split; [|done].
    cbn [calls] in Hs'. rewrite length_app in Hs'. cbn [length] in Hs'.
    rewrite Nat.add_1_r in Hs'. done.
  - rewrite frun_cons. cbn [fexec].
    destruct (pull_select self_id (world s)) as [[r w2]| |]; try done.
    injection Hex as <-. rewrite !bind_Done.
    apply (IH (mkServer w2 (calls s)) Hrun).
  - rewrite frun_cons. cbn [fexec]. rewrite Hex, !bind_Done.
    apply (IH (mkServer w1 (calls s)) Hrun).
Qed.

Lemma reachable_observable (w : World) : reachable w → observable w.
Proof.
  intros [tr Hrun].
  destruct (serial_run tr start w Hrun) as (s' & Hs' & Hw').
  by exists (serial 0 tr), s'.
Qed.

(** ** The claims about the mailboxes *)

(** C1. In every state the server can be in, each mailbox holds at most
    64 envelopes. When [Set_] calls bring a mailbox to 64 queued envelopes
    with no pull in between, a further [Set_] returns the state unchanged
    (the new envelope is dropped), as does any number of further [Set_]
    calls; 64 pulls then deliver exactly the queued envelopes in the order
    they were enqueued, and the next pull finds nothing. *)
Theorem C1_mailbox_holds_at_most_64 (w : World) (id : string)
    (es : list SignalingInfo) (e65 : SignalingInfo) :
  observable w →
  (length (queue w id) + length es = MAX_BUFFER_NUMBER)%nat →
  (∀ id', (length (queue w id') ≤ MAX_BUFFER_NUMBER)%nat) ∧
  ∃ w64,
    run (CallSet id <$> es) w = Done w64 ∧
    queue w64 id = queue w id ++ es ∧
    Set_ id e65 w64 = Done w64 ∧
    (∀ more, run (CallSet id <$> more) w64 = Done w64) ∧
    ∃ w0,
      pulls MAX_BUFFER_NUMBER id w64 = Done (Some <$> (queue w id ++ es), w0) ∧
      queue w0 id = [] ∧
      pull_select id w0 = Done (None, w0).
Proof.
  intros Ho Hlen. pose proof (observable_Wf w Ho) as HW.
  split; [intros id'; by apply Wf_queue_bound|].
  destruct (run_Sets id es w HW) as (w64 & Hrun & HW64 & Hq64); [lia|].
  exists w64. split; [done|]. split; [done|].
  assert (length (queue w64 id) = MAX_BUFFER_NUMBER) as Hfull.
  { rewrite Hq64, length_app. lia. }
  split; [by apply Set_drop|].
  split; [intros more; by apply run_Sets_full|].
  destruct (pulls_drain id (queue w64 id) w64 HW64 eq_refl) as (w0 & Hp & HW0 & Hq0).
  exists w0. rewrite Hfull, Hq64 in Hp. split; [done|]. split; [done|].
  by apply pull_select_none.
Qed.

Lemma C1_witness :
  observable boot ∧
  (length (queue boot "B") + length (burst 64) = MAX_BUFFER_NUMBER)%nat ∧
  ∃ w64,
    run (CallSet "B" <$> burst 64) boot = Done w64 ∧
    queue w64 "B" = burst 64 ∧
    Set_ "B" (envelope 64) w64 = Done w64.
Proof.
  assert (observable boot) as Ho by (exists [], start; split; reflexivity).
  assert (length (queue boot "B") + length (burst 64) = MAX_BUFFER_NUMBER)%nat
    as Hlen by reflexivity.
  split; [exact Ho|]. split; [exact Hlen|].
  destruct (C1_mailbox_holds_at_most_64 boot "B" (burst 64) (envelope 64) Ho Hlen)
    as (_ & w64 & H1 & H2 & H3 & _).
  exists w64. auto.
Defined.

(** C7. A [Set_] that enqueues leaves the peer's counter at 15. A [Set_]
    on a full mailbox returns, and returns the very state it was called
    in: queue and counter are untouched. *)
Theorem C7_Set_resets_or_leaves_unchanged (w : World) (id : string)
    (info : SignalingInfo) :
  observable w →
  ((length (queue w id) < MAX_BUFFER_NUMBER)%nat →
     ∃ w', Set_ id info w = Done w' ∧
           queue w' id = queue w id ++ [info] ∧
           alive (dm w') !! id = Some LIFE_TIME_IN_SECOND) ∧
  (length (queue w id) = MAX_BUFFER_NUMBER → Set_ id info w = Done w).
Proof.
  intros Ho. pose proof (observable_Wf w Ho) as HW. split.
  - by apply Set_enqueue.
  - by apply Set_drop.
Qed.

Lemma C7_witness :
  observable full_B ∧
  length (queue full_B "B") = MAX_BUFFER_NUMBER ∧
  Set_ "B" (envelope 64) full_B = Done full_B.
Proof.
  assert (observable full_B) as Ho.
  { exists (serial 0 (CallSet "B" <$> burst 64)). eexists.
    split; vm_compute; reflexivity. }
  assert (length (queue full_B "B") = MAX_BUFFER_NUMBER) as Hlen
    by (vm_compute; reflexivity).
  split; [exact Ho|]. split; [exact Hlen|].
  exact (proj2 (C7_Set_resets_or_leaves_unchanged full_B "B" (envelope 64) Ho) Hlen).
Defined.

(** ** The handlers *)

(** C4. The pull handler always returns. With no mailbox for the caller
    ([Get] yields the nil channel) or an empty one, the response is the
    untouched one, status 200 and empty body, and the state is unchanged.
    Otherwise the oldest envelope leaves the caller's queue (the other
    queues and the manager's maps are untouched), Content-Type is
    application/binary and the body is what the encoder wrote for that
    envelope. *)
Theorem C4_pull_never_blocks_and_dequeues_one `{Gob} (self_id : string) (w : World) :
  observable w →
  (Get self_id (dm w) = None →
     ∃ rw, pull self_id w = Done (rw, w) ∧ status rw = StatusOK ∧ body rw = []) ∧
  match queue w self_id with
  | [] => ∃ rw, pull self_id w = Done (rw, w) ∧ status rw = StatusOK ∧ body rw = []
  | v :: q =>
      ∃ rw w', pull self_id w = Done (rw, w') ∧
        header rw !! "Content-Type" = Some ["application/binary"] ∧
        body rw = (gob_Encode v).1 ∧
        status rw = StatusOK ∧
        queue w' self_id = q ∧
        (∀ id', id' ≠ self_id → queue w' id' = queue w id') ∧
        dm w' = dm w
  end.
Proof.
  intros Ho. pose proof (observable_Wf w Ho) as HW. split.
  - unfold Get. intros Hnil. exists new_response. unfold pull.
    by rewrite pull_select_absent.
  - destruct (queue w self_id) as [|v q] eqn:Hq.
    + exists new_response. unfold pull. by rewrite pull_select_none.
    + destruct (pull_select_queue self_id w v q HW Hq) as (w' & Hp & _ & Hq' & Hdm & _).
      destruct (pull_select_frame self_id w w' (Some v) HW Hp) as (_ & _ & Hother).
      eexists _, w'. split; [unfold pull; by rewrite Hp|].
      repeat split; try done.
Qed.

Lemma C4_witness :
  observable one_B ∧
  ∃ rw w', pull (H := example_gob) "B" one_B = Done (rw, w') ∧
    header rw !! "Content-Type" = Some ["application/binary"] ∧
    body rw = [Byte.x01] ∧
    queue w' "B" = [].
Proof.
  assert (observable one_B) as Ho.
  { exists (serial 0 [CallSet "B" (envelope 7)]). eexists.
    split; vm_compute; reflexivity. }
  assert (queue one_B "B" = [envelope 7]) as Hq1 by (vm_compute; reflexivity).
  split; [exact Ho|].
  destruct (C4_pull_never_blocks_and_dequeues_one (H := example_gob) "B" one_B Ho)
    as (_ & Hq).
  rewrite Hq1 in Hq.
  destruct Hq as (rw & w' & Hp & Hh & Hb & _ & Hq' & _).
  exists rw, w'. auto.
Defined.

(** The claim of C5 read literally, with "enqueued" taken in its weakest
    sense (the envelope is in the target's queue afterwards), fails: a
    push with a decodable body to a full mailbox enqueues nothing. *)
Lemma C5_counterexample :
  ¬ (∀ (G : Gob) (target_id : string) (request_body : list byte) (w : World)
       (info : SignalingInfo),
       observable w → gob_Decode request_body = Some info →
       ∃ rw w', push target_id request_body w = Done (rw, w') ∧
                info ∈ queue w' target_id).
Proof.
  intros Hclaim.
  assert (observable full_B) as Ho.
  { exists (serial 0 (CallSet "B" <$> burst 64)). eexists.
    split; vm_compute; reflexivity. }
  assert (push (H := example_gob) "B" [Byte.x07] full_B = Done (new_response, full_B))
    as Hpush by (vm_compute; reflexivity).
  assert (queue full_B "B" = burst 64) as Hq by (vm_compute; reflexivity).
  destruct (Hclaim example_gob "B" [Byte.x07] full_B
              (mkSignalingInfo 7 "" "" [] (mkPoolId 0 0 0) "" 0 0) Ho eq_refl)
    as (rw & w' & Hp & Hin).
  rewrite Hpush in Hp. assert (w' = full_B) as -> by congruence.
  rewrite Hq in Hin.
  apply list_elem_of_fmap in Hin as (n & Hn & _).
  discriminate Hn.
Qed.

(** C5, amended. A push whose body does not decode answers 400 and
    returns the state it was called in. A push whose body decodes to an
    envelope answers 200 with an empty body and leaves the state that
    [Set_] yields for the target: the envelope is the newest element of the
    target's queue when the mailbox was absent or had room, and the state
    is unchanged (the envelope is dropped) when the mailbox was full. *)
Theorem C5_push_decodes_then_Set `{Gob} (target_id : string)
    (request_body : list byte) (w : World) :
  observable w →
  (gob_Decode request_body = None →
     ∃ rw, push target_id request_body w = Done (rw, w) ∧
           status rw = StatusBadRequest) ∧
  (∀ info, gob_Decode request_body = Some info →
     ∃ w', push target_id request_body w = Done (new_response, w') ∧
           Set_ target_id info w = Done w' ∧
           if Set_enqueues target_id w
           then queue w' target_id = queue w target_id ++ [info]
           else w' = w).
Proof.
  intros Ho. pose proof (observable_Wf w Ho) as HW. split.
  - intros Hd. unfold push. rewrite Hd. eexists. split; [done|]. done.
  - intros info Hd. unfold push. rewrite Hd.
    unfold Set_enqueues. case_bool_decide as Hlen.
    + destruct (Set_enqueue target_id info w HW Hlen) as (w' & Hs & Hq & _).
      exists w'. by rewrite Hs.
    + pose proof (Wf_queue_bound w target_id HW) as Hle.
      assert (length (queue w target_id) = MAX_BUFFER_NUMBER) as Hfull by lia.
      exists w. by rewrite (Set_drop target_id info w HW Hfull).
Qed.

Lemma C5_witness :
  observable full_B ∧
  (∃ rw, push (H := example_gob) "B" [] full_B = Done (rw, full_B) ∧
         status rw = StatusBadRequest) ∧
  push (H := example_gob) "B" [Byte.x07] boot =
    Done (new_response, after [CallSet "B" (mkSignalingInfo 7 "" "" [] (mkPoolId 0 0 0) "" 0 0)]).
Proof.
  assert (observable full_B) as Ho.
  { exists (serial 0 (CallSet "B" <$> burst 64)). eexists.
    split; vm_compute; reflexivity. }
  split; [exact Ho|]. split.
  - exact (proj1 (C5_push_decodes_then_Set (H := example_gob) "B" [] full_B Ho) eq_refl).
  - vm_compute. reflexivity.
Defined.

(** ** The invariant of serial runs *)

Lemma Inv_boot : Inv boot.
Proof.
  split; [apply Wf_boot|..]; simpl; intros *; rewrite ?lookup_empty; done.
Qed.

Lemma inv_chan (w : World) :
  Inv w → ∀ id l, datas (dm w) !! id = Some l →
    ∃ c, heap w !! l = Some c ∧ closed c = false ∧
         cap c = MAX_BUFFER_NUMBER ∧ (length (buf c) ≤ MAX_BUFFER_NUMBER)%nat.
Proof. intros HI. apply (wf_chan w (inv_wf w HI)). Qed.

(** A watched id is a live peer, and a live peer has a counter. *)
Lemma Inv_dog_peer (w : World) (i : nat) (id : string) (pc : wpc) :
  Inv w → dogs w !! i = Some (mkWatchdog id pc) → pc ≠ Finished →
  ∃ l n, datas (dm w) !! id = Some l ∧ alive (dm w) !! id = Some n.
Proof.
  intros HI Hi Hpc.
  pose proof (inv_dogs w HI id) as Hd. rewrite watchdogs_of_count in Hd.
  pose proof (count_lookup_pos _ _ _ _ Hi (watches_live id pc Hpc)) as Hpos.
  destruct (datas (dm w) !! id) as [l|] eqn:El; [|lia].
  destruct (proj2 (inv_keys w HI id)) as [n Hn]; [by rewrite El|].
  eauto.
Qed.

Lemma Inv_dog_unique (w : World) (i j : nat) (id : string) (p q : wpc) :
  Inv w → dogs w !! i = Some (mkWatchdog id p) → dogs w !! j = Some (mkWatchdog id q) →
  p ≠ Finished → q ≠ Finished → i = j.
Proof.
  intros HI Hi Hj Hp Hq.
  pose proof (inv_dogs w HI id) as Hd. rewrite watchdogs_of_count in Hd.
  destruct (Inv_dog_peer w i id p HI Hi Hp) as (l & n & El & _). rewrite El in Hd.
  eapply (count_one_unique (watches id)); eauto using watches_live.
Qed.


(** Changing channel objects only: the rest of the invariant does not
    look at them. *)
Lemma Inv_heap (w : World) (h' : list chan) :
  Inv w → Wf (mkWorld (dm w) h' (dogs w)) → Inv (mkWorld (dm w) h' (dogs w)).
Proof. intros HI HW. split; [done|..]; apply HI. Qed.

Lemma Inv_Set (id : string) (info : SignalingInfo) (w w' : World) :
  Inv w → Set_ id info w = Done w' → Inv w'.
Proof.
  intros HI Hs. pose proof (inv_wf w HI) as HW.
  pose proof (Wf_Set id info w w' HW Hs) as HW'.
  destruct (Set_cases id info w HW)
    as [(l & c & El & Hc & Hcl & Hlt & Hcap & Hs')|[(El & Hs')|(l & c & _ & _ & _ & Hs')]];
    rewrite Hs' in Hs; injection Hs as <-; [| |done].
  - (* room: the channel and the counter of [id] change *)
    split; [done|..]; simpl.
    + intros id'. rewrite lookup_insert. case_decide; subst.
      * rewrite El. split; eauto.
      * apply (inv_keys w HI).
    + intros id' n. rewrite lookup_insert. case_decide; subst.
      * intros [= <-]. unfold LIFE_TIME_IN_SECOND. lia.
      * apply (inv_range w HI).
    + apply (inv_dogs w HI).
    + intros i id' Hi. unfold alive_at. simpl. rewrite lookup_insert.
      case_decide; subst; simpl; [unfold LIFE_TIME_IN_SECOND; lia|].
      apply (inv_sleep w HI i id' Hi).
  - (* a new peer: entry, counter and watchdog appear together *)
    split; [done|..]; simpl.
    + intros id'. rewrite !lookup_insert. case_decide; subst.
      * split; eauto.
      * apply (inv_keys w HI).
    + intros id' n. rewrite lookup_insert. case_decide; subst.
      * intros [= <-]. unfold LIFE_TIME_IN_SECOND. lia.
      * apply (inv_range w HI).
    + intros id'. rewrite watchdogs_of_count. simpl.
      rewrite count_app, count_cons, count_nil, <- watchdogs_of_count.
      rewrite (inv_dogs w HI id'), lookup_insert. unfold weight.
      case_decide as Hid; subst.
      * rewrite El, watches_live by done. done.
      * rewrite watches_other by done. destruct (datas (dm w) !! id'); lia.
    + intros i id' Hi. unfold alive_at. simpl. rewrite lookup_insert.
      case_decide; subst; simpl; [unfold LIFE_TIME_IN_SECOND; lia|].
      apply lookup_app_Some in Hi as [Hi|[_ Hi]].
      * apply (inv_sleep w HI i id' Hi).
      * destruct (i - length (dogs w))%nat; simplify_eq/=.
Qed.

Lemma Inv_pull_select (self_id : string) (w w' : World) (r : option SignalingInfo) :
  Inv w → pull_select self_id w = Done (r, w') → Inv w'.
Proof.
  intros HI Hp. pose proof (inv_wf w HI) as HW.
  pose proof (Wf_pull_select self_id w w' r HW Hp) as HW'.
  destruct (pull_select_cases self_id w HW)
    as [Hp'|(l & c & v & q & _ & _ & _ & _ & _ & _ & Hp')];
    rewrite Hp' in Hp; injection Hp as <- <-; [done|].
  by apply Inv_heap.
Qed.

(** *** The watchdog in serial runs *)

Lemma watchdog_step_cases (j : nat) (w : World) :
  Inv w →
  match dogs w !! j with
  | Some (mkWatchdog id AtLoopTest) =>
      watchdog_step j w =
        Done (set_pc j id (if decide (0 < alive_at (dm w) id) then Sleeping else AtClean) w)
  | Some (mkWatchdog id Sleeping) =>
      ∃ n, alive (dm w) !! id = Some n ∧ 1 ≤ n ∧
           watchdog_step j w =
             Done (set_pc j id AtLoopTest
                     (mkWorld (mkDManager (datas (dm w)) (<[id := n - 1]> (alive (dm w))))
                              (heap w) (dogs w)))
  | Some (mkWatchdog id AtClean) =>
      ∃ l c, datas (dm w) !! id = Some l ∧ heap w !! l = Some c ∧ closed c = false ∧
             watchdog_step j w =
               Done (set_pc j id Finished
                       (mkWorld (mkDManager (delete id (datas (dm w)))
                                            (delete id (alive (dm w))))
                                (<[l := close_chan c]> (heap w)) (dogs w)))
  | Some (mkWatchdog _ Finished) | None => watchdog_step j w = Done w
  end.
Proof.
  intros HI. unfold watchdog_step.
  destruct (dogs w !! j) as [[id pc]|] eqn:Hj; [|done].
  destruct pc; try done.
  - destruct (Inv_dog_peer w j id Sleeping HI Hj) as (l & n & El & En); [done|].
    pose proof (inv_sleep w HI j id Hj) as Hpos.
    pose proof (inv_range w HI id n En) as Hr.
    rewrite (alive_at_lookup _ _ _ En) in *.
    unfold LIFE_TIME_IN_SECOND in Hr.
    exists n. rewrite int_wrap_small by lia. done.
  - destruct (Inv_dog_peer w j id AtClean HI Hj) as (l & n & El & En); [done|].
    destruct (inv_chan w HI id l El) as (c & Hc & Hcl & _).
    exists l, c. rewrite (Clean_live w id l c) by done. done.
Qed.

(** Moving a watchdog between program points of its loop. *)
Lemma Inv_set_pc (w : World) (i : nat) (id : string) (p q : wpc) :
  Inv w → dogs w !! i = Some (mkWatchdog id p) →
  p ≠ Finished → q ≠ Finished →
  (q = Sleeping → 1 ≤ alive_at (dm w) id) →
  Inv (set_pc i id q w).
Proof.
  intros HI Hi Hp Hq Hs. split; simpl; try apply HI.
  - apply (Wf_frame w); [done..|apply HI].
  - intros id'. rewrite watchdogs_of_count. simpl.
    pose proof (count_insert (watches id') _ i _ (mkWatchdog id q) Hi) as Hc.
    rewrite <- (inv_dogs w HI id'), watchdogs_of_count.
    unfold weight in Hc. destruct (decide (id = id')) as [<-|Hne].
    + rewrite !watches_live in Hc by done. lia.
    + rewrite !watches_other in Hc by done. lia.
  - intros j id' Hj. destruct (decide (i = j)) as [<-|Hne].
    + rewrite list_lookup_insert_eq in Hj by (by eapply lookup_lt_Some).
      injection Hj as <- Hq'. by apply Hs.
    + rewrite list_lookup_insert_ne in Hj by done. by apply (inv_sleep w HI j).
Qed.

(** The end of a sleep: the counter goes down by one. *)
Lemma Inv_decrement (w : World) (i : nat) (id : string) (n : Z) :
  Inv w → dogs w !! i = Some (mkWatchdog id Sleeping) →
  alive (dm w) !! id = Some n → 1 ≤ n →
  Inv (set_pc i id AtLoopTest
         (mkWorld (mkDManager (datas (dm w)) (<[id := n - 1]> (alive (dm w))))
                  (heap w) (dogs w))).
Proof.
  intros HI Hi En Hpos.
  destruct (Inv_dog_peer w i id Sleeping HI Hi) as (l & n' & El & _); [done|].
  pose proof (inv_range w HI id n En) as Hr.
  split; simpl.
  - apply (Wf_frame w); [done..|apply HI].
  - intros id'. rewrite lookup_insert. case_decide; subst.
    + rewrite El. split; eauto.
    + apply (inv_keys w HI).
  - intros id' m. rewrite lookup_insert. case_decide; subst.
    + intros [= <-]. lia.
    + apply (inv_range w HI).
  - intros id'. rewrite watchdogs_of_count. simpl.
    pose proof (count_insert (watches id') _ i _ (mkWatchdog id AtLoopTest) Hi) as Hc.
    rewrite <- (inv_dogs w HI id'), watchdogs_of_count.
    unfold weight in Hc. destruct (decide (id = id')) as [<-|Hne].
    + rewrite !watches_live in Hc by done. lia.
    + rewrite !watches_other in Hc by done. lia.
  - intros j id' Hj. destruct (decide (i = j)) as [<-|Hne].
    + rewrite list_lookup_insert_eq in Hj by (by eapply lookup_lt_Some). done.
    + rewrite list_lookup_insert_ne in Hj by done.
      unfold alive_at. simpl. rewrite lookup_insert. case_decide; subst.
      * exfalso. apply Hne. by eapply (Inv_dog_unique w i j id').
      * apply (inv_sleep w HI j id' Hj).
Qed.

(** The watchdog's [Clean]: channel closed, both entries dropped, the
    watchdog finished. *)
Lemma Inv_watchdog_clean (w : World) (i : nat) (id : string) (l : nat) (c : chan) :
  Inv w → dogs w !! i = Some (mkWatchdog id AtClean) →
  datas (dm w) !! id = Some l → heap w !! l = Some c → closed c = false →
  Inv (set_pc i id Finished
         (mkWorld (mkDManager (delete id (datas (dm w))) (delete id (alive (dm w))))
                  (<[l := close_chan c]> (heap w)) (dogs w))).
Proof.
  intros HI Hi El Hc Hcl. split; simpl.
  - destruct (Wf_Clean id w (inv_wf w HI)) as (w' & Hcl' & HW' & _).
    rewrite (Clean_live w id l c) in Hcl' by done. injection Hcl' as <-.
    eapply Wf_frame; [| |exact HW']; done.
  - intros id'. rewrite !lookup_delete. case_decide.
    + split; intros [? ?]; done.
    + apply (inv_keys w HI).
  - intros id' m. rewrite lookup_delete. case_decide; [done|].
    apply (inv_range w HI).
  - intros id'. rewrite watchdogs_of_count. simpl.
    pose proof (count_insert (watches id') _ i _ (mkWatchdog id Finished) Hi) as Hcnt.
    pose proof (inv_dogs w HI id') as Hd. rewrite watchdogs_of_count in Hd.
    unfold weight in Hcnt. rewrite watches_finished in Hcnt.
    rewrite lookup_delete. case_decide as Hid; subst.
    + rewrite watches_live, El in * by done. lia.
    + rewrite watches_other in Hcnt by done. lia.
  - intros j id' Hj. destruct (decide (i = j)) as [<-|Hne].
    + rewrite list_lookup_insert_eq in Hj by (by eapply lookup_lt_Some). done.
    + rewrite list_lookup_insert_ne in Hj by done.
      unfold alive_at. simpl. rewrite lookup_delete. case_decide; subst.
      * exfalso. apply Hne. by eapply (Inv_dog_unique w i j id').
      * apply (inv_sleep w HI j id' Hj).
Qed.

Lemma watchdog_step_spec (i : nat) (w : World) :
  Inv w → ∃ w', watchdog_step i w = Done w' ∧ Inv w'.
Proof.
  intros HI. pose proof (watchdog_step_cases i w HI) as Hw.
  destruct (dogs w !! i) as [[id pc]|] eqn:Hi; [destruct pc|]; [| | |eauto..].
  - eexists; split; [done|].
    apply (Inv_set_pc w i id AtLoopTest); try done.
    + by case_decide.
    + case_decide; [lia|done].
  - destruct Hw as (n & En & Hn & Hw). eexists; split; [done|]. by apply Inv_decrement.
  - destruct Hw as (l & c & El & Hc & Hcl & Hw). eexists; split; [done|].
    by apply Inv_watchdog_clean.
Qed.

(** *** Every state of a serial run satisfies the invariant *)

Lemma exec_spec (a : action) (w : World) :
  Inv w → ∃ w', exec a w = Done w' ∧ Inv w'.
Proof.
  intros HI. destruct a as [id info|self_id|i]; simpl.
  - destruct (Set_returns id info w (inv_wf w HI)) as [w' Hw']. exists w'.
    split; [done|]. by eapply Inv_Set.
  - destruct (pull_select_returns self_id w (inv_wf w HI)) as (r & w' & Hw').
    exists w'. rewrite Hw'. split; [done|]. by eapply Inv_pull_select.
  - by apply watchdog_step_spec.
Qed.

Lemma run_spec (tr : list action) (w : World) :
  Inv w → ∃ w', run tr w = Done w' ∧ Inv w'.
Proof.
  revert w. induction tr as [|a tr IH]; intros w HI; simpl; [eauto|].
  destruct (exec_spec a w HI) as (w1 & -> & HI1). simpl. by apply IH.
Qed.

Lemma reachable_Inv (w : World) : reachable w → Inv w.
Proof.
  intros [tr Htr]. destruct (run_spec tr boot Inv_boot) as (w' & Hw' & HI).
  congruence.
Qed.

(** A channel that is closed is no mailbox's channel, and nothing
    changes it any more. *)
Lemma exec_closed_persist (a : action) (w w' : World) (l : nat) (c : chan) :
  Inv w → exec a w = Done w' →
  heap w !! l = Some c → closed c = true → heap w' !! l = Some c.
Proof.
  intros HI Hex Hl Hcl.
  assert (∀ id l', datas (dm w) !! id = Some l' → l' ≠ l) as Hfree.
  { intros id l' El' ->. destruct (inv_chan w HI id l El') as (c' & Hc' & Hop & _).
    congruence. }
  destruct a as [id info|self_id|j]; simpl in Hex.
  - destruct (Set_cases id info w (inv_wf w HI))
      as [(l' & c' & El' & Hc' & _ & _ & _ & Hs)|[(El' & Hs)|(l2 & c2 & _ & _ & _ & Hs)]];
      rewrite Hs in Hex; injection Hex as <-; simpl.
    + rewrite list_lookup_insert_ne; [done|]. by eapply Hfree.
    + by apply lookup_app_l_Some.
    + done.
  - destruct (pull_select_cases self_id w (inv_wf w HI))
      as [Hp|(l' & c' & v & q & El' & Hc' & _ & _ & _ & _ & Hp)];
      rewrite Hp in Hex; injection Hex as <-; simpl; [done|].
    rewrite list_lookup_insert_ne; [done|]. by eapply Hfree.
  - pose proof (watchdog_step_cases j w HI) as Hw.
    destruct (dogs w !! j) as [[id pc]|] eqn:Hj; [destruct pc|].
    + rewrite Hw in Hex. by injection Hex as <-.
    + destruct Hw as (n & _ & _ & Hw). rewrite Hw in Hex. by injection Hex as <-.
    + destruct Hw as (l' & c' & El' & _ & _ & Hw). rewrite Hw in Hex.
      injection Hex as <-. simpl.
      rewrite list_lookup_insert_ne; [done|]. by eapply Hfree.
    + rewrite Hw in Hex. by injection Hex as <-.
    + rewrite Hw in Hex. by injection Hex as <-.
Qed.

(** An action that is not a step of watchdog [i] leaves entry [i] of the
    task list alone; so does a step of a watchdog that has finished. *)
Lemma exec_dogs_persist (a : action) (w w' : World) (i : nat) (d : watchdog) :
  Inv w → exec a w = Done w' → is_tick i a = false →
  dogs w !! i = Some d → dogs w' !! i = Some d.
Proof.
  intros HI Hex Hnt Hi.
  destruct a as [id info|self_id|j]; simpl in Hex.
  - destruct (Set_cases id info w (inv_wf w HI))
      as [(l' & c' & _ & _ & _ & _ & _ & Hs)|[(_ & Hs)|(l2 & c2 & _ & _ & _ & Hs)]];
      rewrite Hs in Hex; injection Hex as <-; simpl; try done.
    by apply lookup_app_l_Some.
  - destruct (pull_select_cases self_id w (inv_wf w HI))
      as [Hp|(l' & c' & v & q & _ & _ & _ & _ & _ & _ & Hp)];
      rewrite Hp in Hex; by injection Hex as <-.
  - simpl in Hnt. apply bool_decide_eq_false in Hnt.
    pose proof (watchdog_step_cases j w HI) as Hw.
    destruct (dogs w !! j) as [[id pc]|] eqn:Hj; [destruct pc|].
    + rewrite Hw in Hex. injection Hex as <-. simpl.
      by rewrite list_lookup_insert_ne by done.
    + destruct Hw as (n & _ & _ & Hw). rewrite Hw in Hex. injection Hex as <-. simpl.
      by rewrite list_lookup_insert_ne by done.
    + destruct Hw as (l' & c' & _ & _ & _ & Hw). rewrite Hw in Hex.
      injection Hex as <-. simpl. by rewrite list_lookup_insert_ne by done.
    + rewrite Hw in Hex. by injection Hex as <-.
    + rewrite Hw in Hex. by injection Hex as <-.
Qed.

(** An action that does not concern a peer leaves its two map entries
    alone. *)
Lemma exec_maps_persist (a : action) (w w' : World) (id : string) :
  Inv w → exec a w = Done w' → ¬ concerns a w id →
  datas (dm w') !! id = datas (dm w) !! id ∧
  alive (dm w') !! id = alive (dm w) !! id.
Proof.
  intros HI Hex Hnc.
  destruct a as [id' info|self_id|j]; simpl in Hex, Hnc.
  - destruct (Set_cases id' info w (inv_wf w HI))
      as [(l' & c' & _ & _ & _ & _ & _ & Hs)|[(_ & Hs)|(l2 & c2 & _ & _ & _ & Hs)]];
      rewrite Hs in Hex; injection Hex as <-; simpl; try done.
    + by rewrite lookup_insert_ne.
    + by rewrite !lookup_insert_ne.
  - destruct (pull_select_cases self_id w (inv_wf w HI))
      as [Hp|(l' & c' & v & q & _ & _ & _ & _ & _ & _ & Hp)];
      rewrite Hp in Hex; by injection Hex as <-.
  - pose proof (watchdog_step_cases j w HI) as Hw.
    destruct (dogs w !! j) as [[id' pc]|] eqn:Hj; [destruct pc|].
    + rewrite Hw in Hex. by injection Hex as <-.
    + destruct Hw as (n & _ & _ & Hw). rewrite Hw in Hex. injection Hex as <-. simpl.
      rewrite lookup_insert_ne; [done|]. intros ->. apply Hnc. by exists Sleeping.
    + destruct Hw as (l' & c' & _ & _ & _ & Hw). rewrite Hw in Hex.
      injection Hex as <-. simpl.
      rewrite !lookup_delete_ne; [done| |]; intros ->; apply Hnc; by exists AtClean.
    + rewrite Hw in Hex. by injection Hex as <-.
    + rewrite Hw in Hex. by injection Hex as <-.
Qed.

(** ** The watchdog runs to [Clean] *)

Lemma ticks_of_cons (i : nat) (a : action) (tr : list action) :
  ticks_of i (a :: tr) = (weight (is_tick i) a + ticks_of i tr)%nat.
Proof. apply count_cons. Qed.

Lemma is_tick_true (i : nat) (a : action) : is_tick i a = true → a = Tick i.
Proof.
  destruct a; simpl; try done. intros Hb. by apply bool_decide_eq_true in Hb as ->.
Qed.

Lemma cleaned_queue (w : World) (i : nat) (id : string) (l : nat) :
  cleaned w i id l → Set_enqueues id w = true.
Proof.
  intros (Hd & _). unfold Set_enqueues. rewrite queue_absent by done.
  apply bool_decide_eq_true. unfold MAX_BUFFER_NUMBER. simpl. lia.
Qed.

(** Once a peer is gone it stays gone as long as no [Set_] names it. *)
Lemma cleaned_step (a : action) (w w' : World) (i : nat) (id : string) (l : nat) :
  Inv w → cleaned w i id l → exec a w = Done w' →
  match a with CallSet id' _ => id' ≠ id | _ => True end →
  cleaned w' i id l.
Proof.
  intros HI (Hd & Ha & (c & Hc & Hcl) & Hi) Hex Hset.
  assert (¬ concerns a w id) as Hnc.
  { destruct a as [id' info|self_id|j]; simpl in *; [done|tauto|].
    intros (pc & Hj & Hpc).
    destruct (Inv_dog_peer w j id pc HI Hj Hpc) as (l' & n & El' & _). congruence. }
  destruct (exec_maps_persist a w w' id HI Hex Hnc) as [Hd' Ha'].
  split; [congruence|]. split; [congruence|]. split.
  - exists c. split; [|done]. by eapply exec_closed_persist.
  - destruct (is_tick i a) eqn:Ht.
    + apply is_tick_true in Ht as ->. simpl in Hex.
      pose proof (watchdog_step_cases i w HI) as Hw. rewrite Hi in Hw.
      rewrite Hw in Hex. by injection Hex as <-.
    + by eapply exec_dogs_persist.
Qed.

Lemma cleaned_run (tr : list action) (w : World) (i : nat) (id : string) (l : nat) :
  Inv w → cleaned w i id l → no_enqueue id tr w →
  ∃ w', run tr w = Done w' ∧ Inv w' ∧ cleaned w' i id l.
Proof.
  revert w. induction tr as [|a tr IH]; intros w HI Hcl Hq; [by exists w|].
  destruct Hq as [Ha Hq].
  destruct (exec_spec a w HI) as (w1 & Hex & HI1). rewrite Hex in Hq.
  rewrite run_cons, Hex, bind_Done. apply IH; try done.
  apply (cleaned_step a w w1 i id l HI Hcl Hex).
  destruct a as [id' info| |]; try done.
  intros ->. specialize (Ha eq_refl).
  rewrite (cleaned_queue w i id l Hcl) in Ha. done.
Qed.

Lemma steps_left_pos (pc : wpc) (n : Z) : pc ≠ Finished → (1 ≤ steps_left pc n)%nat.
Proof. destruct pc; simpl; (done || lia). Qed.

(** A watchdog that is not finished, in a run without enqueue for its
    peer, reaches [Clean] once it has taken the steps it has left. *)
Lemma watchdog_runs_to_clean (i : nat) (id : string) (l : nat) (tr : list action) :
  ∀ (w : World) (pc : wpc),
    Inv w → dogs w !! i = Some (mkWatchdog id pc) → pc ≠ Finished →
    datas (dm w) !! id = Some l → no_enqueue id tr w →
    (steps_left pc (alive_at (dm w) id) ≤ ticks_of i tr)%nat →
    ∃ w', run tr w = Done w' ∧ Inv w' ∧ cleaned w' i id l.
Proof.
  induction tr as [|a tr IH]; intros w pc HI Hi Hpc El Hq Hsteps.
  { pose proof (steps_left_pos pc (alive_at (dm w) id) Hpc).
    unfold ticks_of in Hsteps. rewrite count_nil in Hsteps. lia. }
  destruct Hq as [Ha Hq].
  destruct (exec_spec a w HI) as (w1 & Hex & HI1). rewrite Hex in Hq.
  rewrite run_cons, Hex, bind_Done.
  rewrite ticks_of_cons in Hsteps. unfold weight in Hsteps.
  destruct (is_tick i a) eqn:Ht.
  - (* a step of the watchdog itself *)
    apply is_tick_true in Ht as ->. simpl in Hex.
    pose proof (watchdog_step_cases i w HI) as Hw. rewrite Hi in Hw.
    assert (i < length (dogs w))%nat as Hlt by (by eapply lookup_lt_Some).
    destruct pc; [| | |done].
    + rewrite Hw in Hex. injection Hex as <-.
      case_decide as Hpos.
      * apply (IH _ Sleeping); simpl; try done.
        -- by rewrite list_lookup_insert_eq.
        -- simpl in Hsteps. lia.
      * apply (IH _ AtClean); simpl; try done.
        -- by rewrite list_lookup_insert_eq.
        -- simpl in Hsteps. lia.
    + destruct Hw as (n & En & Hn & Hw). rewrite Hw in Hex. injection Hex as <-.
      apply (IH _ AtLoopTest); simpl; try done.
      * by rewrite list_lookup_insert_eq.
      * unfold alive_at. simpl. rewrite lookup_insert_eq. simpl.
        rewrite (alive_at_lookup _ _ _ En) in Hsteps. simpl in Hsteps. lia.
    + destruct Hw as (l' & c & El' & Hc & Hcl & Hw). rewrite Hw in Hex.
      injection Hex as <-. assert (l' = l) as -> by congruence.
      apply cleaned_run; try done.
      split; simpl; [apply lookup_delete_eq|].
      split; [apply lookup_delete_eq|]. split.
      * exists (close_chan c). split; [|done].
        apply list_lookup_insert_eq. by eapply lookup_lt_Some.
      * by rewrite list_lookup_insert_eq.
  - (* any other action *)
    assert ((∃ info, a = CallSet id info) ∨ ¬ concerns a w id) as [[info ->]|Hnc].
    { destruct a as [id' info|self_id|j]; simpl.
      - destruct (decide (id' = id)) as [->|Hne]; [left; eauto|by right].
      - right. tauto.
      - right. intros (pc' & Hj & Hpc').
        simpl in Ht. apply bool_decide_eq_false in Ht. apply Ht.
        by eapply (Inv_dog_unique w i j id pc pc'). }
    + (* a [Set_] for this peer that finds the mailbox full *)
      specialize (Ha eq_refl). unfold Set_enqueues in Ha.
      apply bool_decide_eq_false in Ha.
      pose proof (Wf_queue_bound w id (inv_wf w HI)) as Hb.
      simpl in Hex. rewrite (Set_drop id info w (inv_wf w HI)) in Hex by lia.
      injection Hex as <-. apply (IH w pc); (done || lia).
    + 
      destruct (exec_maps_persist a w w1 id HI Hex Hnc) as [Hd' Ha'].
      apply (IH w1 pc); try done.
      * exact (exec_dogs_persist a w w1 i _ HI Hex Ht Hi).
      * congruence.
      * unfold alive_at in *. rewrite Ha'. lia.
Qed.

Lemma steps_left_bound (w : World) (id : string) (pc : wpc) :
  Inv w →
  (steps_left pc (alive_at (dm w) id) ≤ steps_left AtLoopTest LIFE_TIME_IN_SECOND)%nat.
Proof.
  intros HI.
  assert (0 ≤ alive_at (dm w) id ≤ LIFE_TIME_IN_SECOND) as Hr.
  { unfold alive_at. destruct (alive (dm w) !! id) as [n|] eqn:En; simpl.
    - by apply (inv_range w HI id).
    - unfold LIFE_TIME_IN_SECOND. lia. }
  unfold LIFE_TIME_IN_SECOND in *. destruct pc; simpl; lia.
Qed.

(** [Set_] for a peer that is gone makes a new mailbox. *)
Lemma Set_recreates (w : World) (i : nat) (id : string) (l : nat) (info : SignalingInfo) :
  Inv w → cleaned w i id l →
  ∃ w' l', Set_ id info w = Done w' ∧
    datas (dm w') !! id = Some l' ∧ l' ≠ l ∧
    heap w' !! l' = Some (mkChan [info] MAX_BUFFER_NUMBER false) ∧
    alive (dm w') !! id = Some LIFE_TIME_IN_SECOND ∧
    watchdogs_of w' id = 1%nat ∧
    dogs w' !! length (dogs w) = Some (mkWatchdog id AtLoopTest).
Proof.
  intros HI (Hd & Ha & (c & Hc & Hcl) & Hi).
  pose proof (Set_absent id info w Hd) as Hs.
  pose proof (Inv_Set id info w _ HI Hs) as HI'.
  eexists _, (length (heap w)). split; [exact Hs|]. simpl.
  split; [apply lookup_insert_eq|]. split.
  { apply lookup_lt_Some in Hc. lia. }
  split; [by rewrite lookup_app_r, Nat.sub_diag by lia|].
  split; [apply lookup_insert_eq|]. split.
  - rewrite (inv_dogs _ HI' id). simpl. by rewrite lookup_insert_eq.
  - by rewrite lookup_app_r, Nat.sub_diag by lia.
Qed.

(** C2. Take a reachable state with a mailbox for [id], whose channel is
    [l] and whose watchdog is task [i], and a run from it in which no
    [Set_] enqueues for [id]. If the watchdog takes 32 steps in the run
    (15 passes of its loop, each the test and the one-second sleep with
    its decrement, then the failing test and the call of [Clean]; fewer
    are needed when the counter is already below 15), then at the end of
    the run channel [l] is closed, [id] is in neither map and the watchdog
    has finished. A [Set_] for [id] after that makes a new mailbox: another
    channel of capacity 64 holding just the new envelope, the counter at
    15, and a new watchdog. *)
Theorem C2_idle_peer_cleaned_then_recreated (w : World) (i : nat) (id : string)
    (pc : wpc) (l : nat) (tr : list action) :
  reachable w →
  dogs w !! i = Some (mkWatchdog id pc) → pc ≠ Finished →
  datas (dm w) !! id = Some l →
  no_enqueue id tr w →
  (steps_left AtLoopTest LIFE_TIME_IN_SECOND ≤ ticks_of i tr)%nat →
  ∃ w', run tr w = Done w' ∧
    datas (dm w') !! id = None ∧
    alive (dm w') !! id = None ∧
    (∃ c, heap w' !! l = Some c ∧ closed c = true) ∧
    dogs w' !! i = Some (mkWatchdog id Finished) ∧
    ∀ info, ∃ w'' l',
      Set_ id info w' = Done w'' ∧
      datas (dm w'') !! id = Some l' ∧ l' ≠ l ∧
      heap w'' !! l' = Some (mkChan [info] MAX_BUFFER_NUMBER false) ∧
      alive (dm w'') !! id = Some LIFE_TIME_IN_SECOND ∧
      watchdogs_of w'' id = 1%nat ∧
      dogs w'' !! length (dogs w') = Some (mkWatchdog id AtLoopTest).
Proof.
  intros Hr Hi Hpc El Hq Hsteps. pose proof (reachable_Inv w Hr) as HI.
  pose proof (steps_left_bound w id pc HI) as Hb.
  destruct (watchdog_runs_to_clean i id l tr w pc HI Hi Hpc El Hq) as (w' & Hrun & HI' & Hcl);
    [lia|].
  exists w'. split; [done|].
  pose proof Hcl as (Hd & Ha & Hc & Hf).
  repeat (split; [done|]).
  intros info. by apply (Set_recreates w' i id l info).
Qed.


Lemma C2_witness :
  reachable one_B ∧
  dogs one_B !! 0%nat = Some (mkWatchdog "B" AtLoopTest) ∧
  datas (dm one_B) !! "B" = Some 0%nat ∧
  no_enqueue "B" (replicate 32 (Tick 0)) one_B ∧
  (steps_left AtLoopTest LIFE_TIME_IN_SECOND ≤ ticks_of 0 (replicate 32 (Tick 0)))%nat ∧
  ∃ w', run (replicate 32 (Tick 0)) one_B = Done w' ∧
    datas (dm w') !! "B" = None ∧
    alive (dm w') !! "B" = None ∧
    (∃ c, heap w' !! 0%nat = Some c ∧ closed c = true).
Proof.
  assert (reachable one_B) as Hr
    by (exists [CallSet "B" (envelope 7)]; vm_compute; reflexivity).
  assert (dogs one_B !! 0%nat = Some (mkWatchdog "B" AtLoopTest)) as Hi
    by (vm_compute; reflexivity).
  assert (AtLoopTest ≠ Finished) as Hpc by discriminate.
  assert (datas (dm one_B) !! "B" = Some 0%nat) as El by (vm_compute; reflexivity).
  assert (no_enqueue "B" (replicate 32 (Tick 0)) one_B) as Hq
    by (vm_compute; repeat split).
  assert (steps_left AtLoopTest LIFE_TIME_IN_SECOND ≤ ticks_of 0 (replicate 32 (Tick 0)))%nat
    as Hsteps by (vm_compute; lia).
  repeat (split; [assumption|]).
  destruct (C2_idle_peer_cleaned_then_recreated one_B 0 "B" AtLoopTest 0
              (replicate 32 (Tick 0)) Hr Hi Hpc El Hq Hsteps)
    as (w' & Hrun & Hd & Ha & Hc & _).
  exists w'. auto.
Defined.


(** ** One watchdog per peer, and how the counter moves

    What holds as long as no two [Set] calls overlap. In every state of a
    serial run: each peer with a mailbox has exactly one unfinished
    watchdog and an id without a mailbox has none; the two maps have the
    same keys; every counter lies in [0,15]; a [Set_] that creates the
    mailbox or enqueues leaves the counter at 15; a counter changes only
    by such a reset or by a decrement of one, made by the peer's watchdog
    in the step that ends its one-second sleep; and a peer whose counter
    is 0 is cleaned by the next two steps of its watchdog. *)






(** ** Overlapping [Set] calls

    C6 does not survive two [Set] calls for a new peer that overlap.
    Both calls find [dm.datas[id] == nil], so each stores a channel (the
    second replaces the first, whose envelope is then out of reach),
    resets the counter and starts a watchdog. Once both calls have
    returned, peer B is live and has two watchdogs. The two decrement the
    same counter, two per second; both pass the loop test at 1, and the
    counter goes to 0 and then to -1 with B still in both maps. *)
Theorem C6_overlapping_Sets_start_two_watchdogs :
  frun race start = Done (after_schedule race) ∧
  quiescent (after_schedule race) ∧
  is_Some (datas (dm (world (after_schedule race))) !! "B") ∧
  watchdogs_of (world (after_schedule race)) "B" = 2%nat ∧
  queue (world (after_schedule race)) "B" = [envelope 2] ∧
  alive (dm (world (after_schedule (race_then_rounds 1)))) !! "B" = Some 13 ∧
  frun (race_then_rounds 8) start = Done (after_schedule (race_then_rounds 8)) ∧
  is_Some (datas (dm (world (after_schedule (race_then_rounds 8)))) !! "B") ∧
  alive (dm (world (after_schedule (race_then_rounds 8)))) !! "B" = Some (-1).
Proof.
  split_and!.
  - vm_compute. reflexivity.
  - intros k c Hk.
    assert (calls (after_schedule race)
            = [mkSetCall "B" (envelope 1) SetReturned; mkSetCall "B" (envelope 2) SetReturned])
      as Hcalls by (vm_compute; reflexivity).
    rewrite Hcalls in Hk.
    destruct k as [|[|k]]; simpl in Hk; by simplify_eq.
  - vm_compute. eauto.
  - vm_compute. reflexivity.
  - vm_compute. reflexivity.
  - vm_compute. reflexivity.
  - vm_compute. reflexivity.
  - vm_compute. eauto.
  - vm_compute. reflexivity.
Qed.

(** ** pkg/impl: the connection of a [BaseImpl] *)

Lemma conn_foldl (ks : list impl.base_call) (base : impl.BaseImpl) (latest : option impl.netConn) :
  impl.conn base = latest →
  impl.conn (foldl impl.base_exec base ks) =
  foldl (λ latest k, match k with impl.CallSetConn c => Some c | _ => latest end) latest ks.
Proof.
  revert base latest. induction ks as [|k ks IH]; intros base latest Hc; [done|].
  simpl. apply IH. by destruct k.
Qed.

Lemma conn_base_run (hid : string) (ks : list impl.base_call) :
  impl.conn (impl.base_run hid ks) = impl.last_SetConn ks.
Proof. by apply conn_foldl. Qed.

(** C10. Take a [BaseImpl] made by [NewBaseImpl] and changed by any calls
    of its setters. If [SetConn] was among them, with [c] the argument of
    the latest such call, then [Conn], [Reader], [Writer] and
    [ReadWriteCloser] all return [c]. If [SetConn] was never called, each
    of the four panics (nil pointer dereference) while [Close] returns
    without closing anything. *)
Theorem C10_conn_accessors (hid : string) (ks : list impl.base_call) :
  let base := impl.base_run hid ks in
  match impl.last_SetConn ks with
  | Some c =>
      impl.Conn base = Done c ∧ impl.Reader base = Done c ∧
      impl.Writer base = Done c ∧ impl.ReadWriteCloser base = Done c
  | None =>
      impl.Conn base = Panics ∧ impl.Reader base = Panics ∧
      impl.Writer base = Panics ∧ impl.ReadWriteCloser base = Panics ∧
      impl.Close base = Done []
  end.
Proof.
  intros base. pose proof (conn_base_run hid ks) as Hc. fold base in Hc.
  unfold impl.Conn, impl.Reader, impl.Writer, impl.ReadWriteCloser, impl.Close.
  rewrite Hc. by destruct (impl.last_SetConn ks).
Qed.

(** ** pkg/impl: the request envelope *)

Lemma int32_wrap_eq (z : Z) :
  int32_wrap z = z - 2 ^ 32 * ((z + 2 ^ 31) `div` 2 ^ 32).
Proof.
  unfold int32_wrap, wrap. change (2 ^ (32 - 1)) with (2 ^ 31).
  rewrite Z.mod_eq by lia. lia.
Qed.

Lemma int32_wrap_small (z : Z) : - 2 ^ 31 ≤ z < 2 ^ 31 → int32_wrap z = z.
Proof.
  intros Hz. unfold int32_wrap, wrap. change (2 ^ (32 - 1)) with (2 ^ 31).
  rewrite Z.mod_small; lia.
Qed.

(** Or-ing a multiple of [2^f] with a number below [2^f] adds them. *)
Lemma lor_shifted (a o f : Z) :
  0 ≤ f → 0 ≤ o < 2 ^ f → Z.lor (a * 2 ^ f) o = a * 2 ^ f + o.
Proof.
  intros Hf Ho.
  pose proof (Z.add_lor_land (a * 2 ^ f) o) as Hadd.
  assert (Z.land (a * 2 ^ f) o = 0) as Hland; [|lia].
  apply Z.bits_inj'. intros n Hn.
  rewrite Z.land_spec, Z.bits_0.
  destruct (decide (n < f)).
  - rewrite Z.mul_pow2_bits_low by lia. done.
  - rewrite <- (Z.mod_small o (2 ^ f)) by lia.
    rewrite Z.mod_pow2_bits_high by lia. apply andb_false_r.
Qed.

(** The wrapped left shift is still a multiple of [2^f] when [f] is at
    most 32. *)
Lemma shl32_multiple (s f : Z) :
  0 ≤ f ≤ 32 →
  impl.shl32 s f = (s - 2 ^ (32 - f) * ((s * 2 ^ f + 2 ^ 31) `div` 2 ^ 32)) * 2 ^ f.
Proof.
  intros Hf. unfold impl.shl32. rewrite Z.shiftl_mul_pow2 by lia.
  rewrite int32_wrap_eq.
  replace (2 ^ 32) with (2 ^ (32 - f) * 2 ^ f) at 1
    by (rewrite <- Z.pow_add_r by lia; f_equal; lia).
  lia.
Qed.

Lemma shr32_shifted (a o f : Z) :
  0 ≤ f → 0 ≤ o < 2 ^ f → impl.shr32 (a * 2 ^ f + o) f = a.
Proof.
  intros Hf Ho. unfold impl.shr32. rewrite Z.shiftr_div_pow2 by lia.
  rewrite Z.add_comm, Z.div_add by lia. rewrite Z.div_small by lia. lia.
Qed.

Lemma pow2_8_le (f : Z) : 8 ≤ f → 2 ^ 8 ≤ 2 ^ f.
Proof. intros. apply Z.pow_le_mono_r; lia. Qed.

(** From 8 bits of shift on, the wrapped left shift has its low 8 bits
    clear. *)
Lemma shl32_low_clear (s f : Z) : 8 ≤ f → ∃ b, impl.shl32 s f = b * 2 ^ 8.
Proof.
  intros Hf. unfold impl.shl32. rewrite Z.shiftl_mul_pow2 by lia.
  rewrite int32_wrap_eq.
  exists (s * 2 ^ (f - 8) - 2 ^ 24 * ((s * 2 ^ f + 2 ^ 31) `div` 2 ^ 32)).
  replace (2 ^ f) with (2 ^ (f - 8) * 2 ^ 8) at 1
    by (rewrite <- Z.pow_add_r by lia; f_equal; lia).
  change (2 ^ 32) with (2 ^ 24 * 2 ^ 8) at 1. lia.
Qed.

(** Past 32 bits of shift nothing is left. *)
Lemma shl32_over (s f : Z) : 32 ≤ f → impl.shl32 s f = 0.
Proof.
  intros Hf. unfold impl.shl32. rewrite Z.shiftl_mul_pow2 by lia.
  rewrite int32_wrap_eq.
  replace (2 ^ f) with (2 ^ (f - 32) * 2 ^ 32)
    by (rewrite <- Z.pow_add_r by lia; f_equal; lia).
  rewrite Z.mul_assoc, Z.add_comm, Z.div_add by lia.
  rewrite Z.div_small by lia. lia.
Qed.

Lemma GetOptionCode_packed (flagLen s o : Z) (sender : impl.Sender) :
  0 ≤ o < 256 → 8 ≤ flagLen →
  impl.Type_ sender = impl.pack_Type flagLen s o →
  impl.GetOptionCode sender = o.
Proof.
  intros Ho Hf HT. unfold impl.GetOptionCode. rewrite HT. unfold impl.pack_Type.
  destruct (shl32_low_clear s flagLen Hf) as [b ->].
  rewrite lor_shifted by lia.
  change 255 with (Z.ones 8). rewrite Z.land_ones by lia.
  rewrite Z.add_comm, Z.mod_add by lia. apply Z.mod_small. lia.
Qed.

Lemma GetAppCode_fits (flagLen s o : Z) (sender : impl.Sender) :
  0 ≤ s → 0 ≤ o < 256 → 8 ≤ flagLen → s * 2 ^ flagLen < 2 ^ 31 →
  impl.Type_ sender = impl.pack_Type flagLen s o →
  impl.GetAppCode flagLen sender = s.
Proof.
  intros Hs Ho Hf Hfit HT. unfold impl.GetAppCode. rewrite HT. unfold impl.pack_Type.
  pose proof (pow2_8_le flagLen Hf) as Hp.
  assert (impl.shl32 s flagLen = s * 2 ^ flagLen) as ->.
  { unfold impl.shl32. rewrite Z.shiftl_mul_pow2 by lia.
    apply int32_wrap_small. nia. }
  rewrite lor_shifted by lia. apply shr32_shifted; lia.
Qed.

Lemma GetAppCode_overflow (flagLen s o : Z) (sender : impl.Sender) :
  0 ≤ s → 0 ≤ o < 256 → 8 ≤ flagLen → 2 ^ 31 ≤ s * 2 ^ flagLen →
  impl.Type_ sender = impl.pack_Type flagLen s o →
  impl.GetAppCode flagLen sender ≠ s.
Proof.
  intros Hs Ho Hf Hov HT. unfold impl.GetAppCode. rewrite HT. unfold impl.pack_Type.
  pose proof (pow2_8_le flagLen Hf) as Hp.
  assert (0 < 2 ^ flagLen) as Hpos by (apply Z.pow_pos_nonneg; lia).
  destruct (decide (flagLen ≤ 32)) as [Hle|Hgt].
  - rewrite shl32_multiple by lia.
    rewrite lor_shifted by lia. rewrite shr32_shifted by lia.
    assert (1 ≤ (s * 2 ^ flagLen + 2 ^ 31) `div` 2 ^ 32) as Hq
      by (apply Z.div_le_lower_bound; lia).
    assert (0 < 2 ^ (32 - flagLen)) as Hpos' by (apply Z.pow_pos_nonneg; lia).
    nia.
  - rewrite shl32_over by lia. rewrite Z.lor_0_l.
    unfold impl.shr32. rewrite Z.shiftr_div_pow2 by lia.
    rewrite Z.div_small by lia. nia.
Qed.

(** The claim of C8 fails for a service opcode that is a valid [int32]:
    with [flagLen = 8], shifting [2^24] left by 8 bits overflows the
    [int32] [Type] field and [GetAppCode] returns 0. *)
Lemma C8_counterexample :
  ¬ (∀ (flagLen s o : Z) (sender : impl.Sender),
       0 ≤ s < 2 ^ 31 → 0 ≤ o < 256 → 8 ≤ flagLen →
       impl.Type_ sender = impl.pack_Type flagLen s o →
       impl.GetAppCode flagLen sender = s ∧ impl.GetOptionCode sender = o).
Proof.
  intros Hclaim.
  destruct (Hclaim 8 (2 ^ 24) 0
              (impl.mkSender (impl.pack_Type 8 (2 ^ 24) 0) [] false "" [] 0))
    as [Happ _]; [lia | lia | lia | reflexivity |].
  vm_compute in Happ. discriminate Happ.
Qed.

(** C8, amended. For a service opcode [s ≥ 0], an operation opcode
    [0 ≤ o < 256] and [flagLen ≥ 8], a sender whose [Type] is
    [(s << flagLen) | o] has [GetOptionCode() = o], and has
    [GetAppCode() = s] exactly when [s * 2^flagLen < 2^31], that is when
    the shifted service opcode fits the [int32] field. *)
Theorem C8_packed_Type_round_trip (flagLen s o : Z) (sender : impl.Sender) :
  0 ≤ s → 0 ≤ o < 256 → 8 ≤ flagLen →
  impl.Type_ sender = impl.pack_Type flagLen s o →
  impl.GetOptionCode sender = o ∧
  (impl.GetAppCode flagLen sender = s ↔ s * 2 ^ flagLen < 2 ^ 31).
Proof.
  intros Hs Ho Hf HT. split; [by eapply GetOptionCode_packed|]. split.
  - intros Happ. destruct (decide (s * 2 ^ flagLen < 2 ^ 31)) as [|Hov]; [done|].
    exfalso. eapply (GetAppCode_overflow flagLen s o sender); (done || lia).
  - intros Hfit. by eapply GetAppCode_fits.
Qed.

Lemma C8_witness :
  ∃ sender,
    impl.NewSender 8 2224 (impl.mkImpl APP_TYPE_PROXY "host" "pair" (Some [])) OPTION_TYPE_DOWN
      = Some sender ∧
    0 ≤ APP_TYPE_PROXY ∧ 0 ≤ OPTION_TYPE_DOWN < 256 ∧
    APP_TYPE_PROXY * 2 ^ 8 < 2 ^ 31 ∧
    impl.GetOptionCode sender = OPTION_TYPE_DOWN ∧
    impl.GetAppCode 8 sender = APP_TYPE_PROXY.
Proof.
  exists (impl.mkSender (impl.pack_Type 8 APP_TYPE_PROXY OPTION_TYPE_DOWN)
            (String.list_byte_of_string "pair") false "127.0.0.1:2224" [] 0).
  assert (0 ≤ APP_TYPE_PROXY) as Hs by (unfold APP_TYPE_PROXY; lia).
  assert (0 ≤ OPTION_TYPE_DOWN < 256) as Ho by (unfold OPTION_TYPE_DOWN; lia).
  assert (8 ≤ 8) as Hf by lia.
  assert (APP_TYPE_PROXY * 2 ^ 8 < 2 ^ 31) as Hfit by (unfold APP_TYPE_PROXY; lia).
  destruct (C8_packed_Type_round_trip 8 APP_TYPE_PROXY OPTION_TYPE_DOWN
              (impl.mkSender (impl.pack_Type 8 APP_TYPE_PROXY OPTION_TYPE_DOWN)
                 (String.list_byte_of_string "pair") false "127.0.0.1:2224" [] 0)
              Hs Ho Hf eq_refl)
    as [Hopt Happ].
  split; [vm_compute; reflexivity|].
  repeat split; try lia; try exact Hopt; try (apply Happ; exact Hfit).
Defined.

(** C9. [Send] returns connection [h] exactly when the dial yields [h],
    the encode of the request and the decode of the reply return no
    error, and the reply's [Status] is 0. When all three succeed and the
    reply's [Status] is not 0, [Send] returns the nil connection together
    with the error "response error". *)
Theorem C9_Send_connection_iff_success (d : impl.Daemon) (sender : impl.Sender) :
  (∀ h, (impl.Send d sender).1.1 = Some h ↔
        ∃ reply, impl.Dial d (impl.LocalEntry sender) = inl h ∧
                 impl.Encode_to d h sender = None ∧
                 impl.Decode_from d h sender = (reply, None) ∧
                 impl.Status reply = 0) ∧
  (∀ h reply, impl.Dial d (impl.LocalEntry sender) = inl h →
              impl.Encode_to d h sender = None →
              impl.Decode_from d h sender = (reply, None) →
              impl.Status reply ≠ 0 →
              impl.Send d sender = (None, Some "response error", reply)).
Proof.
  split.
  - intros h. unfold impl.Send.
    destruct (impl.Dial d (impl.LocalEntry sender)) as [c|err] eqn:Hdial; simpl.
    + destruct (impl.Encode_to d c sender) as [err|] eqn:Henc; simpl.
      * split; [done|]. intros (reply & [= ->] & Habs & _). congruence.
      * destruct (impl.Decode_from d c sender) as [reply [err|]] eqn:Hdec; simpl.
        -- split; [done|]. intros (reply' & [= ->] & _ & Habs & _). congruence.
        -- case_decide as Hst; simpl.
           ++ split; [done|]. intros (reply' & [= ->] & _ & Habs & Hz). congruence.
           ++ split.
              ** intros [= ->]. exists reply.
                 repeat split; first [done | by apply dec_stable].
              ** by intros (reply' & [= ->] & _).
    + split; [done|]. by intros (reply & Habs & _).
  - intros h reply Hdial Henc Hdec Hst. unfold impl.Send.
    rewrite Hdial, Henc, Hdec. by rewrite decide_True.
Qed.

(** ** The scenarios of the specification, run *)

(** Queue overflow: A sends 70 envelopes to B with no pull in between;
    B then pulls 70 times and receives the first 64, in order, and
    nothing more. *)
Example scenario_queue_overflow :
  (pulls 70 "B" (after (CallSet "B" <$> burst 70))) ≫= (λ r, Done r.1)
  = Done ((Some <$> burst 64) ++ replicate 6 None).
Proof. vm_compute. reflexivity. Qed.

(** Idle eviction: A pushes once to B and stops; after the watchdog's 32
    steps a pull for B finds no mailbox and answers with the empty 200
    response. *)
Example scenario_idle_eviction :
  pull (H := example_gob) "B" (after (CallSet "B" (envelope 7) :: replicate 32 (Tick 0)))
  ≫= (λ r, Done (status r.1, body r.1))
  = Done (StatusOK, []).
Proof. vm_compute. reflexivity. Qed.

(** After 15 passes of the watchdog's loop (30 steps) the counter is 0
    and the mailbox is still there; the next two steps remove it. *)
Example scenario_counter_at_zero :
  let w := after (CallSet "B" (envelope 7) :: replicate 30 (Tick 0)) in
  alive (dm w) !! "B" = Some 0 ∧ queue w "B" = [envelope 7].
Proof. vm_compute. split; reflexivity. Qed.

(** ** One peer's traffic and the other peers *)

(** What [Set_] does to the peer it is called for, in terms of what can
    be observed. *)
Lemma Set_self (id : string) (info : SignalingInfo) (w : World) :
  Wf w →
  ∃ w', Set_ id info w = Done w' ∧ Wf w' ∧
        queue w' id = (if Set_enqueues id w then queue w id ++ [info] else queue w id) ∧
        alive (dm w') !! id =
          (if Set_enqueues id w then Some LIFE_TIME_IN_SECOND else alive (dm w) !! id) ∧
        is_Some (datas (dm w') !! id) ∧
        watchdogs_of w' id =
          (watchdogs_of w id +
           match datas (dm w) !! id with Some _ => 0 | None => 1 end)%nat.
Proof.
  intros HW.
  destruct (Set_returns id info w HW) as [w' Hs].
  exists w'. split; [done|]. split; [by eapply Wf_Set|].
  destruct (Set_cases id info w HW)
    as [(l & c & El & Hc & Hcl & Hlt & Hcap & Hs')|[(El & Hs')|(l & c & El & Hc & Hfull & Hs')]];
    rewrite Hs' in Hs; injection Hs as <-.
  - unfold Set_enqueues. rewrite (queue_lookup w id l c) by done.
    rewrite bool_decide_eq_true_2 by lia.
    split_and!.
    + unfold queue. simpl. rewrite El.
      by rewrite list_lookup_insert_eq by (by eapply lookup_lt_Some).
    + simpl. apply lookup_insert_eq.
    + simpl. eauto.
    + unfold watchdogs_of. cbn [dogs]. rewrite El. lia.
  - unfold Set_enqueues. rewrite (queue_absent w id El).
    rewrite bool_decide_eq_true_2 by (unfold MAX_BUFFER_NUMBER; simpl; lia).
    split_and!.
    + unfold queue. simpl. rewrite lookup_insert_eq.
      by rewrite lookup_app_r, Nat.sub_diag by lia.
    + simpl. apply lookup_insert_eq.
    + simpl. rewrite lookup_insert_eq. eauto.
    + unfold watchdogs_of. cbn [dogs]. rewrite El, count_app, count_cons, count_nil.
      unfold weight. rewrite watches_live by done. lia.
  - unfold Set_enqueues. rewrite (queue_lookup w id l c) by done.
    rewrite bool_decide_eq_false_2 by lia.
    split_and!; [done|done|eauto|]. rewrite El. lia.
Qed.

(** What [Set_] leaves alone. *)
Lemma Set_frame (id : string) (info : SignalingInfo) (w w' : World) :
  Wf w → Set_ id info w = Done w' →
  ∀ id', id' ≠ id →
    datas (dm w') !! id' = datas (dm w) !! id' ∧
    alive (dm w') !! id' = alive (dm w) !! id' ∧
    queue w' id' = queue w id' ∧
    watchdogs_of w' id' = watchdogs_of w id'.
Proof.
  intros HW Hs id' Hne.
  destruct (Set_cases id info w HW)
    as [(l & c & El & Hc & Hcl & Hlt & Hcap & Hs')|[(El & Hs')|(l & c & El & Hc & Hfull & Hs')]];
    rewrite Hs' in Hs; injection Hs as <-.
  - split_and!; simpl; [done|by rewrite lookup_insert_ne| |done].
    by apply (queue_update_other w id id' l).
  - split_and!; simpl.
    + by rewrite lookup_insert_ne.
    + by rewrite lookup_insert_ne.
    + unfold queue. simpl. rewrite lookup_insert_ne by done.
      destruct (datas (dm w) !! id') as [l'|] eqn:El'; [|done].
      destruct (wf_chan w HW id' l' El') as (c' & Hc' & _).
      by rewrite (lookup_app_l_Some _ _ _ _ Hc'), Hc'.
    + unfold watchdogs_of. cbn [dogs]. rewrite count_app, count_cons, count_nil.
      unfold weight. rewrite watches_other by done. lia.
  - done.
Qed.

Lemma observable_one_B : observable one_B.
Proof.
  exists (serial 0 [CallSet "B" (envelope 7)]). eexists.
  split; vm_compute; reflexivity.
Qed.

(** X1. A [Set] for one peer leaves every other peer alone: in any state
    of the server the call returns, and the map entries, the counter, the
    queue and the watchdogs of every other id are what they were. *)
Theorem Set_leaves_other_peers_alone (w : World) (id : string) (info : SignalingInfo) :
  observable w →
  ∃ w', Set_ id info w = Done w' ∧
    ∀ id', id' ≠ id →
      datas (dm w') !! id' = datas (dm w) !! id' ∧
      alive (dm w') !! id' = alive (dm w) !! id' ∧
      queue w' id' = queue w id' ∧
      watchdogs_of w' id' = watchdogs_of w id'.
Proof.
  intros Ho. pose proof (observable_Wf w Ho) as HW.
  destruct (Set_returns id info w HW) as [w' Hs].
  exists w'. split; [done|]. by apply (Set_frame id info w w').
Qed.

Lemma Set_leaves_other_peers_alone_witness :
  observable one_B ∧
  ∃ w', Set_ "A" (envelope 1) one_B = Done w' ∧ queue w' "B" = [envelope 7].
Proof.
  pose proof observable_one_B as Ho. split; [exact Ho|].
  destruct (Set_leaves_other_peers_alone one_B "A" (envelope 1) Ho) as (w' & Hs & Hf).
  exists w'. split; [exact Hs|].
  destruct (Hf "B") as (_ & _ & Hq & _); [discriminate|].
  rewrite Hq. vm_compute. reflexivity.
Defined.

Lemma Set_enqueues_frame (w w' : World) (id : string) :
  queue w' id = queue w id → Set_enqueues id w' = Set_enqueues id w.
Proof. unfold Set_enqueues. by intros ->. Qed.

Lemma run_two (a b : action) (w w1 w2 : World) :
  exec a w = Done w1 → exec b w1 = Done w2 → run [a; b] w = Done w2.
Proof. intros Ha Hb. by rewrite run_cons, Ha, bind_Done, run_cons, Hb, bind_Done. Qed.

(** X2. [Set] calls for two different peers commute: made one after the
    other in either order, from any state of the server, they leave every
    peer with the same queue, the same counter, a mailbox in the one case
    exactly when in the other, and the same number of watchdogs. *)
Theorem Sets_for_distinct_peers_commute (w : World) (id1 id2 : string)
    (a b : SignalingInfo) :
  observable w → id1 ≠ id2 →
  ∃ w12 w21,
    run [CallSet id1 a; CallSet id2 b] w = Done w12 ∧
    run [CallSet id2 b; CallSet id1 a] w = Done w21 ∧
    ∀ id,
      queue w12 id = queue w21 id ∧
      alive (dm w12) !! id = alive (dm w21) !! id ∧
      (is_Some (datas (dm w12) !! id) ↔ is_Some (datas (dm w21) !! id)) ∧
      watchdogs_of w12 id = watchdogs_of w21 id.
Proof.
  intros Ho Hne. pose proof (observable_Wf w Ho) as HW.
  destruct (Set_self id1 a w HW) as (w1 & Hs1 & HW1 & Q1 & A1 & D1 & G1).
  destruct (Set_self id2 b w1 HW1) as (w12 & Hs12 & _ & Q12 & A12 & D12 & G12).
  destruct (Set_self id2 b w HW) as (w2 & Hs2 & HW2 & Q2 & A2 & D2 & G2).
  destruct (Set_self id1 a w2 HW2) as (w21 & Hs21 & _ & Q21 & A21 & D21 & G21).
  pose proof (Set_frame id1 a w w1 HW Hs1) as F1.
  pose proof (Set_frame id2 b w1 w12 HW1 Hs12) as F12.
  pose proof (Set_frame id2 b w w2 HW Hs2) as F2.
  pose proof (Set_frame id1 a w2 w21 HW2 Hs21) as F21.
  exists w12, w21.
  split; [by apply (run_two _ _ w w1)|]. split; [by apply (run_two _ _ w w2)|].
  destruct (F1 id2) as (Fd1 & Fa1 & Fq1 & Fg1); [done|].
  destruct (F2 id1) as (Fd2 & Fa2 & Fq2 & Fg2); [done|].
  rewrite (Set_enqueues_frame w w1 id2 Fq1), Fq1, Fa1 in *.
  rewrite (Set_enqueues_frame w w2 id1 Fq2), Fq2, Fa2 in *.
  rewrite Fd1, Fg1 in G12. rewrite Fd2, Fg2 in G21.
  intros id. destruct (decide (id = id1)) as [->|N1]; [|destruct (decide (id = id2)) as [->|N2]].
  - destruct (F12 id1) as (Ed & Ea & Eq & Eg); [done|].
    rewrite Eq, Ea, Eg, Q1, A1, G1, Q21, A21, G21.
    split_and!; try done. split; intros _; [done|]. by rewrite Ed.
  - destruct (F21 id2) as (Ed & Ea & Eq & Eg); [done|].
    rewrite Eq, Ea, Eg, Q2, A2, G2, Q12, A12, G12.
    split_and!; try done. split; intros _; [by rewrite Ed|done].
  - destruct (F1 id) as (Ed1 & Ea1 & Eq1 & Eg1); [done|].
    destruct (F12 id) as (Ed12 & Ea12 & Eq12 & Eg12); [done|].
    destruct (F2 id) as (Ed2 & Ea2 & Eq2 & Eg2); [done|].
    destruct (F21 id) as (Ed21 & Ea21 & Eq21 & Eg21); [done|].
    rewrite Eq12, Ea12, Ed12, Eg12, Eq21, Ea21, Ed21, Eg21.
    by rewrite Eq1, Ea1, Ed1, Eg1, Eq2, Ea2, Ed2, Eg2.
Qed.

Lemma Sets_for_distinct_peers_commute_witness :
  observable one_B ∧ "A" ≠ "B" ∧
  ∃ w12 w21,
    run [CallSet "A" (envelope 1); CallSet "B" (envelope 2)] one_B = Done w12 ∧
    run [CallSet "B" (envelope 2); CallSet "A" (envelope 1)] one_B = Done w21 ∧
    queue w12 "B" = queue w21 "B" ∧ queue w12 "A" = queue w21 "A".
Proof.
  pose proof observable_one_B as Ho.
  assert ("A" ≠ "B") as Hne by discriminate.
  split; [exact Ho|]. split; [exact Hne|].
  destruct (Sets_for_distinct_peers_commute one_B "A" "B" (envelope 1) (envelope 2) Ho Hne)
    as (w12 & w21 & H12 & H21 & Hobs).
  exists w12, w21. split; [exact H12|]. split; [exact H21|].
  split; [exact (proj1 (Hobs "B"))|exact (proj1 (Hobs "A"))].
Defined.

(** X20. [Set] creates a mailbox once. In any state of the server a
    [Set] that runs without interruption returns. For a peer that has a
    mailbox it keeps the peer's channel, allocates no channel and starts
    no goroutine. For a peer without one it allocates one channel of
    capacity 64, whose first element is the envelope, stores it under
    the id, sets the counter to 15 and starts one watchdog, at the top of
    its loop. *)
Theorem Set_creates_the_mailbox_once (w : World) (id : string) (info : SignalingInfo) :
  observable w →
  ∃ w', Set_ id info w = Done w' ∧
    match datas (dm w) !! id with
    | Some l =>
        datas (dm w') !! id = Some l ∧
        dogs w' = dogs w ∧
        length (heap w') = length (heap w)
    | None =>
        datas (dm w') !! id = Some (length (heap w)) ∧
        heap w' = heap w ++ [mkChan [info] MAX_BUFFER_NUMBER false] ∧
        dogs w' = dogs w ++ [mkWatchdog id AtLoopTest] ∧
        alive (dm w') !! id = Some LIFE_TIME_IN_SECOND
    end.
Proof.
  intros Ho. pose proof (observable_Wf w Ho) as HW.
  destruct (Set_cases id info w HW)
    as [(l & c & El & Hc & Hcl & Hlt & Hcap & Hs)|[(El & Hs)|(l & c & El & Hc & Hfull & Hs)]];
    rewrite Hs, El; eexists; (split; [done|]); simpl.
  - split_and!; [done|done|]. by rewrite length_insert.
  - split_and!; [apply lookup_insert_eq|done|done|apply lookup_insert_eq].
  - done.
Qed.

Lemma Set_creates_the_mailbox_once_witness :
  observable one_B ∧
  ∃ w', Set_ "B" (envelope 8) one_B = Done w' ∧
        dogs w' = dogs one_B ∧ length (heap w') = 1%nat.
Proof.
  pose proof observable_one_B as Ho. split; [exact Ho|].
  destruct (Set_creates_the_mailbox_once one_B "B" (envelope 8) Ho) as (w' & Hs & Hm).
  exists w'. split; [exact Hs|].
  assert (datas (dm one_B) !! "B" = Some 0%nat) as El by (vm_compute; reflexivity).
  rewrite El in Hm. destruct Hm as (_ & Hd & Hh). split; [exact Hd|].
  rewrite Hh. vm_compute. reflexivity.
Defined.

(** ** The handlers, one after the other *)

(** X3. Push, then pull. In any state of the server in which the
    mailbox of [id] is empty or missing, a push of a decodable body to
    [id] followed by a pull of [id] answers with the encoding of the
    envelope that was decoded, under Content-Type application/binary, and
    leaves the mailbox empty: the next pull gets the empty response. The
    push is filed under the id of the URL: the fields of the envelope
    play no part, and no other peer's queue changes. *)
Theorem push_then_pull_round_trip `{Gob} (id : string) (request_body : list byte)
    (info : SignalingInfo) (w : World) :
  observable w → queue w id = [] → gob_Decode request_body = Some info →
  ∃ w1 rw w2,
    push id request_body w = Done (new_response, w1) ∧
    (∀ id', id' ≠ id → queue w1 id' = queue w id') ∧
    pull id w1 = Done (rw, w2) ∧
    status rw = StatusOK ∧
    header rw !! "Content-Type" = Some ["application/binary"] ∧
    body rw = (gob_Encode info).1 ∧
    queue w2 id = [] ∧
    pull id w2 = Done (new_response, w2).
Proof.
  intros Ho Hq Hdec. pose proof (observable_Wf w Ho) as HW.
  destruct (Set_enqueue id info w HW) as (w1 & Hs & Hq1 & _).
  { rewrite Hq. unfold MAX_BUFFER_NUMBER. simpl. lia. }
  pose proof (Wf_Set id info w w1 HW Hs) as HW1.
  rewrite Hq in Hq1. simpl in Hq1.
  destruct (pull_select_queue id w1 info [] HW1 Hq1) as (w2 & Hp & HW2 & Hq2 & _).
  exists w1, (Write (gob_Encode info).1
                (header_Add "Content-Type" "application/binary" new_response)), w2.
  split_and!.
  - unfold push. by rewrite Hdec, Hs.
  - intros id' Hne. by destruct (Set_frame id info w w1 HW Hs id' Hne) as (_ & _ & ? & _).
  - unfold pull. by rewrite Hp.
  - done.
  - done.
  - done.
  - done.
  - unfold pull. by rewrite (pull_select_none id w2 HW2 Hq2).
Qed.

Lemma push_then_pull_round_trip_witness :
  observable boot ∧ queue boot "B" = [] ∧
  gob_Decode (Gob := example_gob) [Byte.x07] =
    Some (mkSignalingInfo 7 "" "" [] (mkPoolId 0 0 0) "" 0 0) ∧
  ∃ w1 rw w2,
    push (H := example_gob) "B" [Byte.x07] boot = Done (new_response, w1) ∧
    pull (H := example_gob) "B" w1 = Done (rw, w2) ∧
    body rw = [Byte.x07].
Proof.
  assert (observable boot) as Ho by (exists [], start; split; reflexivity).
  assert (queue boot "B" = []) as Hq by reflexivity.
  assert (gob_Decode (Gob := example_gob) [Byte.x07] =
            Some (mkSignalingInfo 7 "" "" [] (mkPoolId 0 0 0) "" 0 0)) as Hd
    by reflexivity.
  split; [exact Ho|]. split; [exact Hq|]. split; [exact Hd|].
  destruct (push_then_pull_round_trip (H := example_gob) "B" [Byte.x07] _ boot Ho Hq Hd)
    as (w1 & rw & w2 & Hpush & _ & Hpull & _ & _ & Hb & _).
  exists w1, rw, w2. split; [exact Hpush|]. split; [exact Hpull|].
  rewrite Hb. reflexivity.
Defined.

(** ** [Clean] *)

(** X4. [Clean] removes its peer and nothing else. In any state of the
    server it returns; afterwards the peer has no channel and no counter,
    the envelopes that were queued for it are gone (a pull select finds
    nothing), no watchdog is started or stopped, and the entries and the
    queue of every other peer are what they were. *)
Theorem Clean_removes_its_peer_only (w : World) (id : string) :
  observable w →
  ∃ w', Clean id w = Done w' ∧
    datas (dm w') !! id = None ∧
    alive (dm w') !! id = None ∧
    queue w' id = [] ∧
    pull_select id w' = Done (None, w') ∧
    dogs w' = dogs w ∧
    ∀ id', id' ≠ id →
      datas (dm w') !! id' = datas (dm w) !! id' ∧
      alive (dm w') !! id' = alive (dm w) !! id' ∧
      queue w' id' = queue w id'.
Proof.
  intros Ho. pose proof (observable_Wf w Ho) as HW.
  destruct (datas (dm w) !! id) as [l|] eqn:El.
  - destruct (wf_chan w HW id l El) as (c & Hc & Hcl & _).
    eexists. split; [by apply (Clean_live w id l c)|]. simpl.
    split_and!.
    + apply lookup_delete_eq.
    + apply lookup_delete_eq.
    + apply queue_absent. simpl. apply lookup_delete_eq.
    + apply pull_select_absent. simpl. apply lookup_delete_eq.
    + done.
    + intros id' Hne. rewrite !lookup_delete_ne by done. split_and!; [done..|].
      unfold queue. simpl. rewrite lookup_delete_ne by done.
      destruct (datas (dm w) !! id') as [l'|] eqn:El'; [|done].
      rewrite list_lookup_insert_ne; [done|].
      intros ->. apply Hne. by apply (wf_inj w HW id' id l').
  - eexists. split; [by apply Clean_absent|]. simpl.
    split_and!.
    + apply lookup_delete_eq.
    + apply lookup_delete_eq.
    + apply queue_absent. simpl. apply lookup_delete_eq.
    + apply pull_select_absent. simpl. apply lookup_delete_eq.
    + done.
    + intros id' Hne. rewrite !lookup_delete_ne by done. split_and!; [done..|].
      unfold queue. simpl. by rewrite lookup_delete_ne by done.
Qed.

Lemma Clean_removes_its_peer_only_witness :
  observable one_B ∧
  ∃ w', Clean "B" one_B = Done w' ∧ queue one_B "B" = [envelope 7] ∧ queue w' "B" = [].
Proof.
  pose proof observable_one_B as Ho. split; [exact Ho|].
  destruct (Clean_removes_its_peer_only one_B "B" Ho) as (w' & Hc & _ & _ & Hq & _).
  exists w'. split; [exact Hc|]. split; [|exact Hq]. vm_compute. reflexivity.
Defined.

(** X5. [Clean] can be repeated: a second call for the same id, right
    after one that returned, returns as well (the channel is not closed
    twice) and changes nothing. *)
Theorem Clean_twice_is_Clean_once (w w' : World) (id : string) :
  Clean id w = Done w' → Clean id w' = Done w'.
Proof.
  unfold Clean. intros Hc.
  destruct (match datas (dm w) !! id with
            | Some l => _
            | None => _
            end) as [h'| |] eqn:Eh; simpl in Hc; try done.
  injection Hc as <-. simpl. rewrite lookup_delete_eq. simpl.
  by rewrite !delete_delete_eq.
Qed.

Lemma Clean_twice_is_Clean_once_witness :
  ∃ w', Clean "B" one_B = Done w' ∧ Clean "B" w' = Done w'.
Proof.
  eexists. split; [vm_compute; reflexivity|].
  apply (Clean_twice_is_Clean_once one_B _ "B"). vm_compute. reflexivity.
Defined.

(** ** The watchdog and the calls around it *)

Lemma steps_left_mono (pc : wpc) (n m : Z) :
  n ≤ m → (steps_left pc n ≤ steps_left pc m)%nat.
Proof. intros Hnm. destruct pc; simpl; lia. Qed.

Lemma watchdog_keeps_mailbox (i : nat) (id : string) (l : nat) (tr : list action) :
  ∀ (w : World) (pc : wpc),
    Inv w → dogs w !! i = Some (mkWatchdog id pc) →
    datas (dm w) !! id = Some l →
    (ticks_of i tr < steps_left pc (alive_at (dm w) id))%nat →
    ∃ w' pc', run tr w = Done w' ∧ Inv w' ∧
              dogs w' !! i = Some (mkWatchdog id pc') ∧ pc' ≠ Finished ∧
              datas (dm w') !! id = Some l.
Proof.
  induction tr as [|a tr IH]; intros w pc HI Hi El Hsteps.
  { exists w, pc. split_and!; try done. intros ->. simpl in Hsteps. lia. }
  assert (pc ≠ Finished) as Hpc by (intros ->; simpl in Hsteps; lia).
  destruct (exec_spec a w HI) as (w1 & Hex & HI1).
  rewrite run_cons, Hex, bind_Done.
  rewrite ticks_of_cons in Hsteps. unfold weight in Hsteps.
  destruct (is_tick i a) eqn:Ht.
  - (* a step of the watchdog itself *)
    apply is_tick_true in Ht as ->. simpl in Hex.
    pose proof (watchdog_step_cases i w HI) as Hw. rewrite Hi in Hw.
    assert (i < length (dogs w))%nat as Hlt by (by eapply lookup_lt_Some).
    destruct pc; [| | |done].
    + rewrite Hw in Hex. injection Hex as <-.
      case_decide as Hpos.
      * apply (IH _ Sleeping); simpl; try done.
        -- by rewrite list_lookup_insert_eq.
        -- simpl in Hsteps. lia.
      * apply (IH _ AtClean); simpl; try done.
        -- by rewrite list_lookup_insert_eq.
        -- simpl in Hsteps. lia.
    + destruct Hw as (n & En & Hn & Hw). rewrite Hw in Hex. injection Hex as <-.
      apply (IH _ AtLoopTest); simpl; try done.
      * by rewrite list_lookup_insert_eq.
      * unfold alive_at. simpl. rewrite lookup_insert_eq. simpl.
        rewrite (alive_at_lookup _ _ _ En) in Hsteps. simpl in Hsteps. lia.
    + simpl in Hsteps. lia.
  - (* any other action *)
    pose proof (exec_dogs_persist a w w1 i _ HI Hex Ht Hi) as Hi1.
    assert ((∃ info, a = CallSet id info) ∨ ¬ concerns a w id) as [[info ->]|Hnc].
    { destruct a as [id' info|self_id|j]; simpl.
      - destruct (decide (id' = id)) as [->|Hne]; [left; eauto|by right].
      - right. tauto.
      - right. intros (pc' & Hj & Hpc').
        simpl in Ht. apply bool_decide_eq_false in Ht. apply Ht.
        by eapply (Inv_dog_unique w i j id pc pc'). }
    + (* a [Set_] for this peer: the counter does not go down *)
      simpl in Hex.
      destruct (Inv_dog_peer w i id pc HI Hi Hpc) as (l0 & n & _ & En).
      pose proof (inv_range w HI id n En) as Hn.
      destruct (Set_cases id info w (inv_wf w HI))
        as [(l' & c & El' & Hc & Hcl & Hlt & Hcap & Hs)|[(El' & Hs)|(l' & c & _ & _ & _ & Hs)]];
        rewrite Hs in Hex; injection Hex as <-.
      * apply (IH _ pc); simpl; try done.
        unfold alive_at. simpl. rewrite lookup_insert_eq. simpl.
        rewrite (alive_at_lookup _ _ _ En) in Hsteps.
        pose proof (steps_left_mono pc n LIFE_TIME_IN_SECOND (proj2 Hn)). lia.
      * congruence.
      * apply (IH _ pc); (done || lia).
    + destruct (exec_maps_persist a w w1 id HI Hex Hnc) as [Hd' Ha'].
      apply (IH w1 pc); try done.
      * congruence.
      * unfold alive_at in *. rewrite Ha'. lia.
Qed.

(** X6. The watchdog does not clean early. In a run without overlapping
    [Set] calls, take a watchdog at any point of its loop and the counter
    [n] of its peer: the loop needs two steps for each unit of [n] (the
    test, then the end of the sleep with its decrement) before the test
    that fails. As long as the watchdog has taken fewer steps than that
    ([steps_left]), whatever the other goroutines do in between, it has
    not finished and the peer still has the channel it had, open. *)
Theorem watchdog_never_cleans_early (w : World) (i : nat) (id : string) (pc : wpc)
    (l : nat) (tr : list action) :
  reachable w →
  dogs w !! i = Some (mkWatchdog id pc) →
  datas (dm w) !! id = Some l →
  (ticks_of i tr < steps_left pc (alive_at (dm w) id))%nat →
  ∃ w' pc', run tr w = Done w' ∧
            dogs w' !! i = Some (mkWatchdog id pc') ∧ pc' ≠ Finished ∧
            datas (dm w') !! id = Some l ∧
            ∃ c, heap w' !! l = Some c ∧ closed c = false.
Proof.
  intros Hr Hi El Hsteps. pose proof (reachable_Inv w Hr) as HI.
  destruct (watchdog_keeps_mailbox i id l tr w pc HI Hi El Hsteps)
    as (w' & pc' & Hrun & HI' & Hi' & Hpc' & El').
  exists w', pc'. split_and!; try done.
  destruct (inv_chan w' HI' id l El') as (c & Hc & Hcl & _). eauto.
Qed.

Lemma watchdog_never_cleans_early_witness :
  reachable one_B ∧
  dogs one_B !! 0%nat = Some (mkWatchdog "B" AtLoopTest) ∧
  datas (dm one_B) !! "B" = Some 0%nat ∧
  (ticks_of 0 (replicate 31 (Tick 0)) <
     steps_left AtLoopTest (alive_at (dm one_B) "B"))%nat ∧
  ∃ w', run (replicate 31 (Tick 0)) one_B = Done w' ∧
        datas (dm w') !! "B" = Some 0%nat.
Proof.
  assert (reachable one_B) as Hr
    by (exists [CallSet "B" (envelope 7)]; vm_compute; reflexivity).
  assert (dogs one_B !! 0%nat = Some (mkWatchdog "B" AtLoopTest)) as Hi
    by (vm_compute; reflexivity).
  assert (datas (dm one_B) !! "B" = Some 0%nat) as El by (vm_compute; reflexivity).
  assert (ticks_of 0 (replicate 31 (Tick 0)) <
            steps_left AtLoopTest (alive_at (dm one_B) "B"))%nat as Hsteps
    by (vm_compute; lia).
  repeat (split; [assumption|]).
  destruct (watchdog_never_cleans_early one_B 0 "B" AtLoopTest 0
              (replicate 31 (Tick 0)) Hr Hi El Hsteps)
    as (w' & pc' & Hrun & _ & _ & Hd & _).
  exists w'. auto.
Defined.

(** X7. A [Set] between the watchdog's last loop test and its call of
    [Clean] is lost. In a run without overlapping [Set] calls, when the
    watchdog of a peer has left its loop and has not yet called [Clean],
    a [Set] for the peer still finds the mailbox: it returns, and when
    there is room it queues the envelope and puts the counter back to
    15. The watchdog's next step is [Clean] all the same: the peer's
    entries are removed and the envelope is gone with the queue. *)
Theorem Set_after_the_loop_is_cleaned (w : World) (i : nat) (id : string)
    (info : SignalingInfo) :
  reachable w →
  dogs w !! i = Some (mkWatchdog id AtClean) →
  ∃ w1 w2,
    Set_ id info w = Done w1 ∧
    is_Some (datas (dm w1) !! id) ∧
    (Set_enqueues id w = true →
       queue w1 id = queue w id ++ [info] ∧
       alive (dm w1) !! id = Some LIFE_TIME_IN_SECOND) ∧
    watchdog_step i w1 = Done w2 ∧
    datas (dm w2) !! id = None ∧
    alive (dm w2) !! id = None ∧
    queue w2 id = [] ∧
    watchdogs_of w2 id = 0%nat.
Proof.
  intros Hr Hi. pose proof (reachable_Inv w Hr) as HI.
  destruct (Set_self id info w (inv_wf w HI)) as (w1 & Hs & _ & Hq1 & Ha1 & Hd1 & _).
  pose proof (Inv_Set id info w w1 HI Hs) as HI1.
  assert (dogs w1 !! i = Some (mkWatchdog id AtClean)) as Hi1.
  { by apply (exec_dogs_persist (CallSet id info) w w1 i _ HI). }
  pose proof (watchdog_step_cases i w1 HI1) as Hw. rewrite Hi1 in Hw.
  destruct Hw as (l & c & El & Hc & Hcl & Hw).
  destruct (watchdog_step_spec i w1 HI1) as (w2 & Hw2 & HI2).
  exists w1, w2. split; [done|]. split; [done|]. split.
  { intros He. rewrite He in Hq1, Ha1. done. }
  split; [done|].
  rewrite Hw in Hw2. injection Hw2 as <-.
  assert (datas (dm (set_pc i id Finished
            {| dm := {| datas := delete id (datas (dm w1));
                        alive := delete id (alive (dm w1)) |};
               heap := <[l:=close_chan c]> (heap w1);
               dogs := dogs w1 |})) !! id = None) as Hnone
    by (simpl; apply lookup_delete_eq).
  split; [done|]. split; [simpl; apply lookup_delete_eq|].
  split; [by apply queue_absent|].
  rewrite (inv_dogs _ HI2 id). by rewrite Hnone.
Qed.

Lemma Set_after_the_loop_is_cleaned_witness :
  reachable at_clean_B ∧
  dogs at_clean_B !! 0%nat = Some (mkWatchdog "B" AtClean) ∧
  ∃ w1 w2,
    Set_ "B" (envelope 8) at_clean_B = Done w1 ∧
    queue w1 "B" = [envelope 7; envelope 8] ∧
    alive (dm w1) !! "B" = Some LIFE_TIME_IN_SECOND ∧
    watchdog_step 0 w1 = Done w2 ∧
    queue w2 "B" = [].
Proof.
  assert (reachable at_clean_B) as Hr
    by (exists (CallSet "B" (envelope 7) :: replicate 31 (Tick 0)); vm_compute; reflexivity).
  assert (dogs at_clean_B !! 0%nat = Some (mkWatchdog "B" AtClean)) as Hi
    by (vm_compute; reflexivity).
  split; [exact Hr|]. split; [exact Hi|].
  destruct (Set_after_the_loop_is_cleaned at_clean_B 0 "B" (envelope 8) Hr Hi)
    as (w1 & w2 & Hs & _ & He & Hw & _ & _ & Hq & _).
  destruct He as [Hq1 Ha1]; [vm_compute; reflexivity|].
  exists w1, w2. split; [exact Hs|]. split.
  { rewrite Hq1. vm_compute. reflexivity. }
  split; [exact Ha1|]. split; [exact Hw|exact Hq].
Defined.



(** ** pkg/impl: the fields of a [BaseImpl] under any calls *)

Lemma base_fields_foldl (ks : list impl.base_call) (base : impl.BaseImpl) :
  impl.HId (foldl impl.base_exec base ks) = last_SetHostId (impl.HId base) ks ∧
  impl.PId (foldl impl.base_exec base ks) =
    foldl (λ latest k, match k with impl.CallSetPairId id => id | _ => latest end)
          (impl.PId base) ks ∧
  impl.Parent (foldl impl.base_exec base ks) =
    foldl (λ latest k, match k with impl.CallSetParentId id => id | _ => latest end)
          (impl.Parent base) ks ∧
  (impl.ConnectNow (foldl impl.base_exec base ks) = true ↔
     impl.ConnectNow base = true ∧ impl.CallNoNeedConnect ∉ ks).
Proof.
  revert base. induction ks as [|k ks IH]; intros base.
  { simpl. split_and!; try done. split; [|tauto].
    intros ?. split; [done|]. apply not_elem_of_nil. }
  simpl. destruct (IH (impl.base_exec base k)) as (H1 & H2 & H3 & H4).
  rewrite H1, H2, H3, H4. unfold last_SetHostId.
  rewrite not_elem_of_cons.
  destruct k; simpl; split_and!; try done;
    unfold impl.Init, impl.Preper, impl.Response, impl.Dial_, impl.Attach;
    (split; [intros [? ?]|intros (? & ? & ?)]; try done).
Qed.

(** X9. The identifiers of a [BaseImpl] are independent cells and
    [ConnectNow] only goes one way. After [NewBaseImpl(hid)] and any
    sequence of calls, [HostId], [PairId] and [ParentId] return the
    argument of the latest call of their own setter ([hid], the empty
    string and the empty string when there was none), and
    [IsNeedConnect] is true exactly when [NoNeedConnect] was not called:
    no call sets it back. *)
Theorem BaseImpl_fields_after_calls (hid : string) (ks : list impl.base_call) :
  let base := impl.base_run hid ks in
  impl.HostId base = last_SetHostId hid ks ∧
  impl.PairId base = last_SetPairId ks ∧
  impl.ParentId base = last_SetParentId ks ∧
  (impl.IsNeedConnect base = true ↔ impl.CallNoNeedConnect ∉ ks).
Proof.
  simpl. destruct (base_fields_foldl ks (impl.NewBaseImpl hid)) as (H1 & H2 & H3 & H4).
  unfold impl.base_run, impl.HostId, impl.PairId, impl.ParentId, impl.IsNeedConnect.
  split_and!; try done. rewrite H4. simpl. tauto.
Qed.

(** X10. [Close] and the accessors disagree about nil. On a [BaseImpl]
    that never had [SetConn], [Close] returns without closing anything
    while [Conn] panics; after [SetConn(nil)] [Conn] returns nil while
    [Close] panics; after [SetConn] of a connection [Close] calls that
    connection's [Close], once, and [Conn] returns it. It is the latest
    [SetConn] that counts. *)
Theorem Close_after_calls (hid : string) (ks : list impl.base_call) :
  let base := impl.base_run hid ks in
  match impl.last_SetConn ks with
  | None => impl.Close base = Done [] ∧ impl.Conn base = Panics
  | Some None => impl.Close base = Panics ∧ impl.Conn base = Done None
  | Some (Some h) => impl.Close base = Done [h] ∧ impl.Conn base = Done (Some h)
  end.
Proof.
  simpl. pose proof (conn_base_run hid ks) as Hc.
  unfold impl.Close, impl.Conn. rewrite Hc.
  by destruct (impl.last_SetConn ks) as [[h|]|].
Qed.

(** ** pkg/impl: [Send] and [NewSender] *)

(** X11. [Send] returns a connection or an error, never both and never
    neither; and as long as no reply was decoded (the dial or the
    encoder failed) the sender is left as it was. *)
Theorem Send_connection_xor_error (d : impl.Daemon) (sender : impl.Sender) :
  ((impl.Send d sender).1.1 = None ↔ (impl.Send d sender).1.2 ≠ None) ∧
  (∀ err, impl.Dial d (impl.LocalEntry sender) = inr err →
     impl.Send d sender = (None, Some err, sender)) ∧
  (∀ c err, impl.Dial d (impl.LocalEntry sender) = inl c →
     impl.Encode_to d c sender = Some err →
     impl.Send d sender = (None, Some err, sender)).
Proof.
  split_and!.
  - unfold impl.Send.
    destruct (impl.Dial d (impl.LocalEntry sender)) as [c|err]; simpl; [|done].
    destruct (impl.Encode_to d c sender) as [err|]; simpl; [done|].
    destruct (impl.Decode_from d c sender) as [reply [err|]]; simpl; [done|].
    case_decide; simpl; [done|]. split; [done|]. intros Hn. by destruct Hn.
  - intros err Hd. unfold impl.Send. by rewrite Hd.
  - intros c err Hd He. unfold impl.Send. by rewrite Hd, He.
Qed.



(** ** pkg/conf: lines in, lines out *)

Lemma Split_nonempty (s : string) (sep : ascii) : conf.Split s sep ≠ [].
Proof.
  destruct s as [|c s]; simpl; [done|].
  case_decide; [done|]. by destruct (conf.Split s sep).
Qed.

Lemma Join_cons_char (c : ascii) (x : string) (r : list string) (sep : string) :
  conf.Join (String c x :: r) sep = String c (conf.Join (x :: r) sep).
Proof. by destruct r. Qed.

Lemma Join_Split (s : string) (sep : ascii) :
  conf.Join (conf.Split s sep) (String sep EmptyString) = s.
Proof.
  induction s as [|c s IH]; simpl; [done|].
  case_decide as Hc.
  - subst c. pose proof (Split_nonempty s sep).
    destruct (conf.Split s sep) as [|x r] eqn:E; [done|].
    change (conf.Join (EmptyString :: x :: r) (String sep EmptyString))
      with (String sep (conf.Join (x :: r) (String sep EmptyString))).
    by rewrite IH.
  - pose proof (Split_nonempty s sep).
    destruct (conf.Split s sep) as [|x r] eqn:E; [done|].
    by rewrite Join_cons_char, IH.
Qed.

Lemma Split_pieces (s : string) (sep : ascii) :
  Forall (λ piece, has_byte sep piece = false) (conf.Split s sep).
Proof.
  induction s as [|c s IH]; simpl.
  { by repeat constructor. }
  case_decide as Hc.
  - by constructor.
  - destruct (conf.Split s sep) as [|x r].
    + repeat constructor. simpl. by rewrite bool_decide_eq_false_2.
    + inversion IH as [|? ? Hx Hr]; subst. constructor; [|done].
      simpl. by rewrite bool_decide_eq_false_2.
Qed.

Lemma Split_app_sep (x t : string) (sep : ascii) :
  has_byte sep x = false →
  conf.Split (x +:+ String sep t) sep = x :: conf.Split t sep.
Proof.
  induction x as [|c x IH]; simpl; intros Hx.
  { by rewrite decide_True. }
  apply orb_false_iff in Hx as [Hc Hx]. apply bool_decide_eq_false in Hc.
  rewrite decide_False by done. by rewrite IH.
Qed.

Lemma Split_one_piece (x : string) (sep : ascii) :
  has_byte sep x = false → conf.Split x sep = [x].
Proof.
  induction x as [|c x IH]; simpl; intros Hx; [done|].
  apply orb_false_iff in Hx as [Hc Hx]. apply bool_decide_eq_false in Hc.
  rewrite decide_False by done. by rewrite IH.
Qed.

Lemma Split_Join (l : list string) (sep : ascii) :
  l ≠ [] → Forall (λ piece, has_byte sep piece = false) l →
  conf.Split (conf.Join l (String sep EmptyString)) sep = l.
Proof.
  induction l as [|x [|y r] IH]; intros Hne Hl; [done| |].
  - simpl. apply Split_one_piece. by inversion Hl.
  - inversion Hl as [|? ? Hx Hr]; subst.
    change (conf.Join (x :: y :: r) (String sep EmptyString))
      with (x +:+ String sep (conf.Join (y :: r) (String sep EmptyString))).
    rewrite Split_app_sep by done. by rewrite IH.
Qed.

Lemma filter_lines_foldl (lines acc : list string) (subStr : string) :
  foldl (λ newLines line,
           if conf.Contains line subStr then newLines else newLines ++ [line])
        acc lines
  = acc ++ filter (λ line, conf.Contains line subStr = false) lines.
Proof.
  revert acc. induction lines as [|x lines IH]; intros acc; simpl.
  { by rewrite app_nil_r. }
  rewrite IH, filter_cons. destruct (conf.Contains x subStr) eqn:E.
  - by rewrite decide_False.
  - rewrite decide_True by done. by rewrite <- app_assoc.
Qed.

Lemma filter_lines_filter (lines : list string) (subStr : string) :
  conf.filter_lines lines subStr
  = filter (λ line, conf.Contains line subStr = false) lines.
Proof. unfold conf.filter_lines. by rewrite filter_lines_foldl. Qed.

Lemma filter_pieces (lines : list string) (subStr : string) (sep : ascii) :
  Forall (λ piece, has_byte sep piece = false) lines →
  Forall (λ piece, has_byte sep piece = false)
         (filter (λ line, conf.Contains line subStr = false) lines).
Proof.
  induction 1 as [|x l Hx Hl IH]; [done|].
  rewrite filter_cons. case_decide; [by constructor|done].
Qed.

Lemma filter_filter_same (lines : list string) (subStr : string) :
  filter (λ line, conf.Contains line subStr = false)
         (filter (λ line, conf.Contains line subStr = false) lines)
  = filter (λ line, conf.Contains line subStr = false) lines.
Proof.
  induction lines as [|x lines IH]; [done|].
  rewrite filter_cons. case_decide as Hx; [|done].
  by rewrite filter_cons, decide_True, IH.
Qed.

Lemma filter_all (lines : list string) (subStr : string) :
  (∀ line, line ∈ lines → conf.Contains line subStr = false) →
  filter (λ line, conf.Contains line subStr = false) lines = lines.
Proof.
  induction lines as [|x lines IH]; intros Hall; [done|].
  rewrite filter_cons, decide_True by (apply Hall; left).
  rewrite IH; [done|]. intros line Hl. apply Hall. by right.
Qed.

Lemma example_ReadFile_known_hosts :
  example_ReadFile ("/home/u" +:+ "/.ssh/known_hosts") = Some example_known_hosts.
Proof. reflexivity. Qed.

(** X13. [ClearKnownHosts] keeps exactly the other lines. When the file
    can be read, the function writes it back under the same name, and the
    lines of what it writes are the lines of what it read that do not
    contain the pattern (the argument with its first 127.0.0.1 put in
    brackets), in their order. When every line contains the pattern the
    file is written empty. *)
Theorem ClearKnownHosts_keeps_the_other_lines (HOME : string)
    (ReadFile : string → option string) (subStr input : string) :
  ReadFile (HOME +:+ "/.ssh/known_hosts") = Some input →
  ∃ output,
    conf.ClearKnownHosts HOME ReadFile subStr
      = Some (HOME +:+ "/.ssh/known_hosts", output) ∧
    let kept := filter (λ line, conf.Contains line (conf.bracketed subStr) = false)
                       (conf.Split input conf.newline) in
    (kept ≠ [] → conf.Split output conf.newline = kept) ∧
    (kept = [] → output = EmptyString).
Proof.
  intros Hr. unfold conf.ClearKnownHosts. rewrite Hr.
  eexists. split; [done|]. simpl. rewrite filter_lines_filter. split.
  - intros Hne. apply Split_Join; [done|].
    apply filter_pieces, Split_pieces.
  - by intros ->.
Qed.

Lemma ClearKnownHosts_keeps_the_other_lines_witness :
  example_ReadFile ("/home/u" +:+ "/.ssh/known_hosts") = Some example_known_hosts ∧
  ∃ output,
    conf.ClearKnownHosts "/home/u" example_ReadFile "127.0.0.1:2222"
      = Some ("/home/u/.ssh/known_hosts", output) ∧
    conf.Split output conf.newline = ["example.org ssh-ed25519 BBBB"; EmptyString].
Proof.
  split; [exact example_ReadFile_known_hosts|].
  destruct (ClearKnownHosts_keeps_the_other_lines "/home/u" example_ReadFile
              "127.0.0.1:2222" example_known_hosts example_ReadFile_known_hosts)
    as (output & Hc & Hk & _).
  exists output. split; [exact Hc|]. apply Hk. vm_compute. discriminate.
Defined.

(** X14. [ClearKnownHosts] rewrites a file without a matching line as it
    was: splitting at the newlines and joining again gives back every
    byte, a newline at the end included. *)
Theorem ClearKnownHosts_no_match_same_file (HOME : string)
    (ReadFile : string → option string) (subStr input : string) :
  ReadFile (HOME +:+ "/.ssh/known_hosts") = Some input →
  (∀ line, line ∈ conf.Split input conf.newline →
           conf.Contains line (conf.bracketed subStr) = false) →
  conf.ClearKnownHosts HOME ReadFile subStr
    = Some (HOME +:+ "/.ssh/known_hosts", input).
Proof.
  intros Hr Hall. unfold conf.ClearKnownHosts. rewrite Hr. simpl.
  rewrite filter_lines_filter, filter_all by done.
  by rewrite Join_Split.
Qed.

Lemma ClearKnownHosts_no_match_same_file_witness :
  example_ReadFile ("/home/u" +:+ "/.ssh/known_hosts") = Some example_known_hosts ∧
  conf.ClearKnownHosts "/home/u" example_ReadFile "127.0.0.1:22022"
    = Some ("/home/u/.ssh/known_hosts", example_known_hosts).
Proof.
  split; [exact example_ReadFile_known_hosts|].
  apply (ClearKnownHosts_no_match_same_file "/home/u" example_ReadFile "127.0.0.1:22022"
           example_known_hosts example_ReadFile_known_hosts).
  intros line Hl. vm_compute in Hl.
  repeat (apply elem_of_cons in Hl as [->|Hl]; [vm_compute; reflexivity|]).
  by apply elem_of_nil in Hl.
Defined.

(** X15. [ClearKnownHosts] is idempotent: run again with the same
    argument on the file it wrote, it writes the same content. *)
Theorem ClearKnownHosts_twice (HOME : string) (ReadFile ReadFile' : string → option string)
    (subStr output : string) :
  conf.ClearKnownHosts HOME ReadFile subStr
    = Some (HOME +:+ "/.ssh/known_hosts", output) →
  ReadFile' (HOME +:+ "/.ssh/known_hosts") = Some output →
  conf.ClearKnownHosts HOME ReadFile' subStr
    = Some (HOME +:+ "/.ssh/known_hosts", output).
Proof.
  unfold conf.ClearKnownHosts. intros H1 Hr'. rewrite Hr'.
  destruct (ReadFile (HOME +:+ "/.ssh/known_hosts")) as [input|]; [|done].
  simpl in *. rewrite filter_lines_filter in *.
  injection H1 as <-. f_equal. f_equal.
  set (p := conf.bracketed subStr).
  set (kept := filter (λ line, conf.Contains line p = false)
                      (conf.Split input conf.newline)).
  destruct kept as [|x r] eqn:Ek.
  - simpl. destruct (conf.Contains EmptyString p) eqn:Ec.
    + by rewrite filter_cons, decide_False, filter_nil by (by rewrite Ec).
    + by rewrite filter_cons, decide_True, filter_nil by done.
  - rewrite Split_Join; [|done|].
    + rewrite <- Ek. unfold kept. by rewrite filter_filter_same.
    + rewrite <- Ek. apply filter_pieces, Split_pieces.
Qed.

Lemma ClearKnownHosts_twice_witness :
  ∃ output,
    conf.ClearKnownHosts "/home/u" example_ReadFile "127.0.0.1:2222"
      = Some ("/home/u/.ssh/known_hosts", output) ∧
    conf.ClearKnownHosts "/home/u" (λ _, Some output) "127.0.0.1:2222"
      = Some ("/home/u/.ssh/known_hosts", output).
Proof.
  eexists. split; [vm_compute; reflexivity|].
  apply (ClearKnownHosts_twice "/home/u" example_ReadFile); [vm_compute|]; reflexivity.
Defined.

Lemma prefix_app_l (a r s : string) :
  String.prefix (a +:+ r) s = true → String.prefix a s = true.
Proof.
  revert s. induction a as [|c a IH]; intros [|d s]; simpl; try done.
  destruct (ascii_dec c d); [apply IH|done].
Qed.

Lemma Contains_app_l (s a r : string) :
  conf.Contains s (a +:+ r) = true → conf.Contains s a = true.
Proof.
  induction s as [|c s IH]; cbn [conf.Contains]; intros Hc.
  - rewrite orb_false_r in *. by apply (prefix_app_l a r).
  - apply orb_true_iff in Hc as [Hp|Hc]; apply orb_true_iff.
    + left. by apply (prefix_app_l a r).
    + right. by apply IH.
Qed.

Lemma bracketed_local_ssh_entry (port : Z) :
  conf.bracketed (conf.local_ssh_entry port) = "[127.0.0.1]:" +:+ pretty port.
Proof. reflexivity. Qed.

Lemma ClearKnownHosts_lines (HOME : string)
    (ReadFile : string → option string) (subStr input : string) :
  ReadFile (HOME +:+ "/.ssh/known_hosts") = Some input →
  ∃ output,
    conf.ClearKnownHosts HOME ReadFile subStr
      = Some (HOME +:+ "/.ssh/known_hosts", output) ∧
    let kept := filter (λ line, conf.Contains line (conf.bracketed subStr) = false)
                       (conf.Split input conf.newline) in
    (kept ≠ [] → conf.Split output conf.newline = kept) ∧
    (kept = [] → output = EmptyString).
Proof.
  intros Hr. unfold conf.ClearKnownHosts. rewrite Hr.
  eexists. split; [done|]. simpl. rewrite filter_lines_filter. split.
  - intros Hne. apply Split_Join; [done|]. apply filter_pieces, Split_pieces.
  - by intros ->.
Qed.

(** X16. [ClearKnownHosts] matches by substring, so a port is matched by
    its first digits. [NewConfManager] calls it with 127.0.0.1 and the
    local SSH port [p]; the pattern is then [[127.0.0.1]:p], and every
    line of the file with an entry [[127.0.0.1]:q] is dropped as soon as
    the decimal digits of [q] begin with those of [p]: clearing for port
    22 also drops the entries of port 2222. *)
Theorem ClearKnownHosts_drops_ports_with_the_same_first_digits (HOME : string)
    (ReadFile : string → option string) (input line rest : string) (p q : Z) :
  ReadFile (HOME +:+ "/.ssh/known_hosts") = Some input →
  pretty q = pretty p +:+ rest →
  line ∈ conf.Split input conf.newline →
  conf.Contains line ("[127.0.0.1]:" +:+ pretty q) = true →
  ∃ output,
    conf.ClearKnownHosts HOME ReadFile (conf.local_ssh_entry p)
      = Some (HOME +:+ "/.ssh/known_hosts", output) ∧
    line ∉ conf.Split output conf.newline.
Proof.
  intros Hr Hpq Hl Hc.
  destruct (ClearKnownHosts_lines HOME ReadFile (conf.local_ssh_entry p) input Hr)
    as (output & Ho & Hk & He).
  exists output. split; [done|].
  rewrite bracketed_local_ssh_entry in Hk, He.
  assert (conf.Contains line ("[127.0.0.1]:" +:+ pretty p) = true) as Hcp.
  { apply (Contains_app_l line _ rest).
    rewrite Hpq in Hc.
    by replace (("[127.0.0.1]:" +:+ pretty p) +:+ rest)
      with ("[127.0.0.1]:" +:+ (pretty p +:+ rest)). }
  set (kept := filter (λ line, conf.Contains line ("[127.0.0.1]:" +:+ pretty p) = false)
                      (conf.Split input conf.newline)) in *.
  destruct kept as [|x r] eqn:Ek.
  - rewrite He by done. simpl. intros Hin. apply list_elem_of_singleton in Hin as ->.
    by vm_compute in Hcp.
  - rewrite Hk by done. rewrite <- Ek. unfold kept.
    intros Hin. apply list_elem_of_filter in Hin as [Hf _]. congruence.
Qed.

Lemma ClearKnownHosts_drops_ports_with_the_same_first_digits_witness :
  example_ReadFile ("/home/u" +:+ "/.ssh/known_hosts") = Some example_known_hosts ∧
  pretty 2222 = pretty 22 +:+ "22" ∧
  ∃ output,
    conf.ClearKnownHosts "/home/u" example_ReadFile (conf.local_ssh_entry 22)
      = Some ("/home/u/.ssh/known_hosts", output) ∧
    "[127.0.0.1]:2222 ssh-ed25519 AAAA" ∉ conf.Split output conf.newline.
Proof.
  assert (pretty 2222 = pretty 22 +:+ "22") as Hpq by (vm_compute; reflexivity).
  split; [exact example_ReadFile_known_hosts|]. split; [exact Hpq|].
  apply (ClearKnownHosts_drops_ports_with_the_same_first_digits "/home/u" example_ReadFile
           example_known_hosts _ "22" 22 2222 example_ReadFile_known_hosts Hpq).
  - vm_compute. left.
  - vm_compute. reflexivity.
Defined.

(** X17. The empty argument empties the file: the empty string is
    contained in every line, so [ClearKnownHosts("")] keeps no line and
    writes the file back with no content. *)
Theorem ClearKnownHosts_empty_argument (HOME : string)
    (ReadFile : string → option string) (input : string) :
  ReadFile (HOME +:+ "/.ssh/known_hosts") = Some input →
  conf.ClearKnownHosts HOME ReadFile EmptyString
    = Some (HOME +:+ "/.ssh/known_hosts", EmptyString).
Proof.
  intros Hr. unfold conf.ClearKnownHosts. rewrite Hr. simpl.
  rewrite filter_lines_filter.
  assert (∀ lines, filter (λ line, conf.Contains line (conf.bracketed EmptyString) = false)
                          lines = []) as ->; [|done].
  induction lines as [|x lines IH]; [done|].
  rewrite filter_cons, decide_False; [done|]. by destruct x.
Qed.

Lemma ClearKnownHosts_empty_argument_witness :
  example_ReadFile ("/home/u" +:+ "/.ssh/known_hosts") = Some example_known_hosts ∧
  conf.ClearKnownHosts "/home/u" example_ReadFile EmptyString
    = Some ("/home/u/.ssh/known_hosts", EmptyString).
Proof.
  split; [exact example_ReadFile_known_hosts|].
  exact (ClearKnownHosts_empty_argument "/home/u" example_ReadFile
           example_known_hosts example_ReadFile_known_hosts).
Defined.

(** ** pkg/types: the text of a pool id *)

Lemma has_byte_pretty_N_go (x : N) (s : string) :
  has_byte "_" s = false → has_byte "_" (pretty_N_go x s) = false.
Proof.
  revert s. induction (N.lt_wf_0 x) as [x _ IH]; intros s Hs.
  assert (x = 0 ∨ 0 < x)%N as [->|?] by lia.
  - by rewrite pretty_N_go_0.
  - rewrite pretty_N_go_step by done. apply IH.
    { by apply N.div_lt. }
    simpl. rewrite Hs. unfold pretty_N_char. by repeat case_match.
Qed.

Lemma has_byte_pretty_N (x : N) : has_byte "_" (pretty x) = false.
Proof.
  unfold pretty, pretty_N. case_decide; [done|]. by apply has_byte_pretty_N_go.
Qed.

Lemma has_byte_pretty_Z (z : Z) : has_byte "_" (pretty z) = false.
Proof.
  destruct z as [|p|p]; [done| |].
  - apply (has_byte_pretty_N (N.pos p)).
  - change (pretty (Z.neg p)) with ("-" +:+ pretty (N.pos p)).
    simpl. apply (has_byte_pretty_N (N.pos p)).
Qed.

Lemma split_at_first (c : ascii) (a a' r r' : string) :
  has_byte c a = false → has_byte c a' = false →
  a +:+ String c r = a' +:+ String c r' → a = a' ∧ r = r'.
Proof.
  revert a'. induction a as [|x a IH]; intros [|x' a']; simpl; intros Ha Ha' Heq.
  - by injection Heq as ->.
  - injection Heq as <- _. by rewrite bool_decide_eq_true_2 in Ha'.
  - injection Heq as -> _. by rewrite bool_decide_eq_true_2 in Ha.
  - injection Heq as -> Heq.
    apply orb_false_iff in Ha as [_ Ha]. apply orb_false_iff in Ha' as [_ Ha'].
    destruct (IH a' Ha Ha' Heq) as [-> ->]. done.
Qed.

(** X18. The text of a pool id tells pools apart. [String] yields the
    same text for two pool ids and two direction arguments exactly when
    the implementation codes, the values and the direction arguments are
    equal. The [Direction] field of the pool id is not printed: the
    direction in the text is the argument. *)
Theorem PoolId_String_inj (pd pd' : PoolId) (direct direct' : Z) :
  PoolId_String pd direct = PoolId_String pd' direct' ↔
  ImplCode pd = ImplCode pd' ∧ Value pd = Value pd' ∧ direct = direct'.
Proof.
  split.
  - unfold PoolId_String. intros Heq. simpl in Heq.
    injection Heq as Heq.
    apply split_at_first in Heq as [H1 Heq]; [|apply has_byte_pretty_Z..].
    apply split_at_first in Heq as [H2 H3]; [|apply has_byte_pretty_Z..].
    split_and!; by apply (inj pretty).
  - unfold PoolId_String. by intros (-> & -> & ->).
Qed.
